(** * Verification of [compress_and_upload_ego4d.py]

    A shallow embedding of the script that packs a directory tree into
    size-bounded tar archives, uploads each archive, deletes it after a
    confirmed upload and keeps a progress file for resumption.

    What is outside Python's own semantics is taken as follows.
    - The directory walk [get_all_files] is the input list [all_files] of
      (path, size) pairs; sizes are naturals, as [os.path.getsize] returns,
      and [max_size_gb] is a natural number. Sizes are within the range of
      a float, so the division of line 101 raises on a zero ceiling only.
    - [check_disk_space] and [upload_to_modelscope] talk to the outside
      world: their boolean outcomes come from an environment that answers
      the n-th call of each.
    - What the calls do to the staging directory and the progress file is
      recorded in the state, and every call is appended to an event log.
    - The loop is given twice. [process_files] is the run in which nothing
      raises; the loop-level properties are proved on it.
      [process_files_exn] lets [tarfile] fail on chosen archives and
      Ctrl-C arrive during chosen uploads; [compress_upload_and_clean] and
      [script_main] are built on it, and a run of it that returns is a run
      of [process_files] (lemma [process_files_refines]).
    - Three exceptions are followed: the division of line 101, a failing
      [tarfile] call, Ctrl-C during an upload. [shutil.disk_usage],
      [os.path.getsize], [os.remove] and [open] for writing are assumed not
      to raise: the progress path is absent or a regular file in a
      writable directory.
    - [json.dump] followed by [json.load] is the identity on the record
      [save_progress] writes; a progress file holds either such a JSON
      object (each of its two keys present or not, with values of the types
      [save_progress] writes), another JSON value, or text [json.load]
      rejects. *)

From Stdlib Require Import Ascii.
From stdpp Require Import base gmap strings list pretty.

#[local] Set Warnings "-clear-no-such-hyp".

Open Scope N_scope.

(** ** Files, ledger documents and the observable world *)

(** What [json.load] can return on the progress file. *)
Inductive json_doc :=
| JRecord (current_archive : option Z) (processed_files : option (list string))
| JOther.

(** The progress file [upload_progress.json] in the staging directory. *)
Inductive file_state :=
| Absent                      (* os.path.exists is False *)
| Unreadable                  (* a file, but open(.., 'r') raises *)
| Garbled                     (* exists, json.load raises (also the empty file) *)
| Holds (d : json_doc).

Inductive batch_kind := Normal | BigFile.

(** One entry per external call, in program order. *)
Inductive Event :=
| SpaceCheck (ok : bool)
| Compress (kind : batch_kind) (archive : string) (files : list string)
| Upload (archive : string) (ok : bool)
| Remove (archive : string)
| SaveProgress (current_archive : Z) (processed : list string).

Record World := mkWorld {
  progress_file : file_state;
  temp_files : gset string;     (* archives present in temp_dir *)
  space_calls : nat;            (* calls of check_disk_space so far *)
  upload_calls : nat;           (* calls of upload_to_modelscope so far *)
  events : list Event
}.

(** The outside world: the outcome of the n-th space check and upload. *)
Record Env := mkEnv {
  disk_ok : nat → bool;
  upload_ok : nat → bool
}.

Definition fresh_world (pf : file_state) (tf : gset string) : World :=
  mkWorld pf tf 0%nat 0%nat [].

(** ** A state monad over [World] *)

Definition M (A : Type) : Type := World → A * World.

#[global] Instance M_ret : MRet M := λ A a w, (a, w).

#[global] Instance M_bind : MBind M := λ A B k m w, let '(a, w') := m w in k a w'.

(** ** The progress ledger (lines 52-71) *)

(** [open(progress_file, 'w')]: creates or truncates the file. *)
Definition open_truncate : M unit := λ w,
  (tt, mkWorld Garbled (temp_files w) (space_calls w) (upload_calls w) (events w)).

(** [json.dump({...}, f)] and the close of the [with] block. *)
Definition json_dump (current_archive : Z) (processed_files : list string) : M unit := λ w,
  (tt, mkWorld (Holds (JRecord (Some current_archive) (Some processed_files)))
               (temp_files w) (space_calls w) (upload_calls w)
               (events w ++ [SaveProgress current_archive processed_files])).

Definition save_progress (current_archive : Z) (processed_files : list string) : M unit :=
  open_truncate ;; json_dump current_archive processed_files.

(** The [try] block of [load_progress]; [None] is a raised exception. *)
Definition read_ledger (f : file_state) : option (Z * gset string) :=
  match f with
  | Holds (JRecord (Some ca) (Some pf)) => Some (ca, list_to_set pf)
  | _ => None
  end.

Definition path_exists (f : file_state) : bool :=
  match f with Absent => false | _ => true end.

Definition load_progress : M (Z * gset string) := λ w,
  if path_exists (progress_file w) then
    match read_ledger (progress_file w) with
    | Some r => (r, w)
    | None => ((1%Z, ∅), w)
    end
  else ((1%Z, ∅), w).

(** Lines 269-271: the progress file is removed once everything is done. *)
Definition clear_progress : M unit := λ w,
  if path_exists (progress_file w) then
    (tt, mkWorld Absent (temp_files w) (space_calls w) (upload_calls w) (events w))
  else (tt, w).

(** ** External collaborators *)

Section Run.
Context (env : Env).

Definition check_disk_space : M bool := λ w,
  let ok := disk_ok env (space_calls w) in
  (ok, mkWorld (progress_file w) (temp_files w) (S (space_calls w)) (upload_calls w)
               (events w ++ [SpaceCheck ok])).

Definition upload_to_modelscope (archive : string) : M bool := λ w,
  let ok := upload_ok env (upload_calls w) in
  (ok, mkWorld (progress_file w) (temp_files w) (space_calls w) (S (upload_calls w))
               (events w ++ [Upload archive ok])).

(** [tarfile.open(path, "w:gz")] and the [tar.add] calls. *)
Definition tar_create (k : batch_kind) (archive : string) (files : list string) : M unit := λ w,
  (tt, mkWorld (progress_file w) ({[archive]} ∪ temp_files w) (space_calls w) (upload_calls w)
               (events w ++ [Compress k archive files])).

Definition os_remove (archive : string) : M unit := λ w,
  (tt, mkWorld (progress_file w) (temp_files w ∖ {[archive]}) (space_calls w) (upload_calls w)
               (events w ++ [Remove archive])).

(** ** Archive names: [f"ego4d_part_{current_archive:03d}.tar.gz"] *)

Definition zfill (width : nat) (digits : string) : string :=
  String.concat "" (replicate (width - String.length digits) "0"%string) +:+ digits.

Definition fmt_03d (n : Z) : string :=
  if (n <? 0)%Z then "-" +:+ zfill 2 (pretty (Z.abs_N n))
  else zfill 3 (pretty (Z.to_N n)).

Definition archive_name (current_archive : Z) : string :=
  "ego4d_part_" +:+ fmt_03d current_archive +:+ ".tar.gz".

Definition big_file_archive (current_archive : Z) : string :=
  "ego4d_bigfile_" +:+ fmt_03d current_archive +:+ ".tar.gz".

(** ** The batching loop (lines 109-273) *)

(** The loop variables of [compress_upload_and_clean]. *)
Record Loop := mkLoop {
  current_archive : Z;
  processed_files : gset string;
  current_size : N;
  current_files : list string
}.

(** How one iteration ends: on to the next file, or [return b]. *)
Inductive ctl :=
| Next (st : Loop)
| Return (b : bool).

Definition nonempty {A} (l : list A) : bool :=
  match l with [] => false | _ => true end.

Context (max_size_bytes : N).

(** Lines 132-180: the accumulated files become one archive. *)
Definition flush_batch (st : Loop) : M ctl :=
  let name := archive_name (current_archive st) in
  tar_create Normal name (current_files st) ;;
  upload_success ← upload_to_modelscope name;
  if (upload_success : bool) then
    os_remove name ;;
    let processed := processed_files st ∪ list_to_set (current_files st) in
    save_progress (current_archive st + 1)%Z (elements processed) ;;
    mret (Next (mkLoop (current_archive st + 1)%Z processed 0 []))
  else
    save_progress (current_archive st) (elements (processed_files st)) ;;
    mret (Return false).

(** Lines 183-222: a file larger than the ceiling is archived alone. *)
Definition big_file (file_path : string) (st : Loop) : M ctl :=
  let name := big_file_archive (current_archive st) in
  tar_create BigFile name [file_path] ;;
  upload_success ← upload_to_modelscope name;
  if (upload_success : bool) then
    os_remove name ;;
    let processed := processed_files st ∪ {[file_path]} in
    save_progress (current_archive st + 1)%Z (elements processed) ;;
    mret (Next (mkLoop (current_archive st + 1)%Z processed
                      (current_size st) (current_files st)))
  else
    save_progress (current_archive st) (elements (processed_files st)) ;;
    mret (Return false).

(** Lines 224-225. *)
Definition append_file (f : string * N) (st : Loop) : M ctl :=
  mret (Next (mkLoop (current_archive st) (processed_files st)
                    (current_size st + f.2) (current_files st ++ [f.1]))).

(** Lines 117-225: one iteration of [for file_path, file_size in all_files]. *)
Definition loop_body (f : string * N) (st : Loop) : M ctl :=
  if decide (f.1 ∈ processed_files st) then mret (Next st)
  else
    space ← check_disk_space;
    if negb (space : bool) then
      save_progress (current_archive st) (elements (processed_files st)) ;;
      mret (Return false)
    else if (max_size_bytes <? current_size st + f.2) && nonempty (current_files st)
            || (max_size_bytes <? f.2) then
      r ← (if nonempty (current_files st) then flush_batch st else mret (Next st));
      match r with
      | Return b => mret (Return b)
      | Next st1 =>
          if max_size_bytes <? f.2 then big_file f.1 st1
          else append_file f st1
      end
    else append_file f st.

Fixpoint for_files (all_files : list (string * N)) (st : Loop) : M ctl :=
  match all_files with
  | [] => mret (Next st)
  | f :: rest =>
      r ← loop_body f st;
      match r with
      | Next st' => for_files rest st'
      | Return b => mret (Return b)
      end
  end.

(** Lines 228-264: the files left in the accumulator at the end of input. *)
Definition last_batch (st : Loop) : M ctl :=
  if nonempty (current_files st) then
    let name := archive_name (current_archive st) in
    tar_create Normal name (current_files st) ;;
    upload_success ← upload_to_modelscope name;
    if (upload_success : bool) then
      os_remove name ;;
      mret (Next (mkLoop (current_archive st)
                        (processed_files st ∪ list_to_set (current_files st))
                        (current_size st) (current_files st)))
    else
      save_progress (current_archive st) (elements (processed_files st)) ;;
      mret (Return false)
  else mret (Next st).

(** Lines 109-273, from the loaded ledger on. *)
Definition process_files (start : Z * gset string) (all_files : list (string * N)) : M bool :=
  r ← for_files all_files (mkLoop start.1 start.2 0 []);
  match r with
  | Return b => mret b
  | Next st =>
      r' ← last_batch st;
      match r' with
      | Return b => mret b
      | Next _ => clear_progress ;; mret true
      end
  end.

End Run.

(** Line 105: [load_progress(progress_file) if resume else (1, set())]. *)
Definition initial_progress (resume : bool) : M (Z * gset string) :=
  if resume then load_progress else mret (1%Z, ∅).

(** ** Exceptions (lines 101, 141-143, 156, 194-195, 203, 235-237, 248) *)

(** The exceptions followed: the division of line 101, a [tarfile] call
    that fails, and Ctrl-C while an upload is running. *)
Inductive exn := ZeroDivisionError | TarError | KeyboardInterrupt.

Inductive result (A : Type) :=
| Done (a : A)
| Raised (e : exn).

Arguments Done {A} a.
Arguments Raised {A} e.

(** State and exceptions: a raised exception ends the computation with the
    world as it stands. *)
Definition MX (A : Type) : Type := World → result A * World.

#[global] Instance MX_ret : MRet MX := λ A a w, (Done a, w).

#[global] Instance MX_bind : MBind MX := λ A B k m w,
  match m w with
  | (Done a, w') => k a w'
  | (Raised e, w') => (Raised e, w')
  end.

Definition lift {A} (m : M A) : MX A := λ w, let '(a, w') := m w in (Done a, w').

Definition raise {A} (e : exn) : MX A := λ w, (Raised e, w).

(** On which archives [tarfile] fails, and during the upload of which
    archives Ctrl-C arrives. The archives of one run have distinct names,
    so this singles out any of its compressions and uploads. *)
Record Faults := mkFaults {
  tar_fails : string → bool;
  interrupted : string → bool
}.

Definition no_faults : Faults := mkFaults (λ _, false) (λ _, false).

(** The loop once more, with what can raise. [process_files] above is the
    run in which nothing does. *)
Section Raising.
Context (env : Env) (faults : Faults) (max_size_bytes : N).

(** [tarfile.open] creates the archive; a [tar.add] that fails raises out
    of the [with] block, which no [try] encloses. *)
Definition tar_create_exn (k : batch_kind) (archive : string) (files : list string) : MX unit :=
  lift (tar_create k archive files) ;;
  if tar_fails faults archive then raise TarError else mret tt.

(** Ctrl-C during [subprocess.run] is no [CalledProcessError]: it leaves
    [upload_to_modelscope] as [KeyboardInterrupt]. *)
Definition upload_exn (archive : string) : MX bool :=
  if interrupted faults archive then raise KeyboardInterrupt
  else lift (upload_to_modelscope env archive).

Definition flush_batch_exn (st : Loop) : MX ctl :=
  let name := archive_name (current_archive st) in
  tar_create_exn Normal name (current_files st) ;;
  upload_success ← upload_exn name;
  if (upload_success : bool) then
    lift (os_remove name) ;;
    let processed := processed_files st ∪ list_to_set (current_files st) in
    lift (save_progress (current_archive st + 1)%Z (elements processed)) ;;
    mret (Next (mkLoop (current_archive st + 1)%Z processed 0 []))
  else
    lift (save_progress (current_archive st) (elements (processed_files st))) ;;
    mret (Return false).

Definition big_file_exn (file_path : string) (st : Loop) : MX ctl :=
  let name := big_file_archive (current_archive st) in
  tar_create_exn BigFile name [file_path] ;;
  upload_success ← upload_exn name;
  if (upload_success : bool) then
    lift (os_remove name) ;;
    let processed := processed_files st ∪ {[file_path]} in
    lift (save_progress (current_archive st + 1)%Z (elements processed)) ;;
    mret (Next (mkLoop (current_archive st + 1)%Z processed
                      (current_size st) (current_files st)))
  else
    lift (save_progress (current_archive st) (elements (processed_files st))) ;;
    mret (Return false).

Definition loop_body_exn (f : string * N) (st : Loop) : MX ctl :=
  if decide (f.1 ∈ processed_files st) then mret (Next st)
  else
    space ← lift (check_disk_space env);
    if negb (space : bool) then
      lift (save_progress (current_archive st) (elements (processed_files st))) ;;
      mret (Return false)
    else if (max_size_bytes <? current_size st + f.2) && nonempty (current_files st)
            || (max_size_bytes <? f.2) then
      r ← (if nonempty (current_files st) then flush_batch_exn st else mret (Next st));
      match r with
      | Return b => mret (Return b)
      | Next st1 =>
          if max_size_bytes <? f.2 then big_file_exn f.1 st1
          else lift (append_file f st1)
      end
    else lift (append_file f st).

Fixpoint for_files_exn (all_files : list (string * N)) (st : Loop) : MX ctl :=
  match all_files with
  | [] => mret (Next st)
  | f :: rest =>
      r ← loop_body_exn f st;
      match r with
      | Next st' => for_files_exn rest st'
      | Return b => mret (Return b)
      end
  end.

Definition last_batch_exn (st : Loop) : MX ctl :=
  if nonempty (current_files st) then
    let name := archive_name (current_archive st) in
    tar_create_exn Normal name (current_files st) ;;
    upload_success ← upload_exn name;
    if (upload_success : bool) then
      lift (os_remove name) ;;
      mret (Next (mkLoop (current_archive st)
                        (processed_files st ∪ list_to_set (current_files st))
                        (current_size st) (current_files st)))
    else
      lift (save_progress (current_archive st) (elements (processed_files st))) ;;
      mret (Return false)
  else mret (Next st).

Definition process_files_exn (start : Z * gset string) (all_files : list (string * N)) : MX bool :=
  r ← for_files_exn all_files (mkLoop start.1 start.2 0 []);
  match r with
  | Return b => mret b
  | Next st =>
      r' ← last_batch_exn st;
      match r' with
      | Return b => mret b
      | Next _ => lift clear_progress ;; mret true
      end
  end.

End Raising.

(** Lines 81-273. Line 101, [math.ceil(total_size / max_size_bytes)],
    divides by the ceiling before the ledger is read. *)
Definition compress_upload_and_clean (env : Env) (faults : Faults) (max_size_gb : N)
    (resume : bool) (all_files : list (string * N)) : MX bool :=
  let max_size_bytes := max_size_gb * 1024 * 1024 * 1024 in
  (if decide (max_size_bytes = 0) then raise ZeroDivisionError else mret tt) ;;
  start ← lift (initial_progress resume);
  process_files_exn env faults max_size_bytes start all_files.

(** ** The script's top level (lines 275-307) *)

(** Lines 287-307, [try: success = ... except KeyboardInterrupt: ...]:
    Ctrl-C is caught and logged, any other exception leaves the script. *)
Definition try_except (body : MX bool) : MX unit := λ w,
  match body w with
  | (Done _, w') => (Done tt, w')
  | (Raised KeyboardInterrupt, w') => (Done tt, w')
  | (Raised e, w') => (Raised e, w')
  end.

(** The exit status of the interpreter: the script never calls [sys.exit],
    so it is 0 when the script runs to its end and 1 when an exception
    escapes. *)
Definition exit_status {A} (r : result A) : Z :=
  match r with
  | Done _ => 0
  | Raised _ => 1
  end.

Definition script_main (env : Env) (faults : Faults) (all_files : list (string * N)) : M Z := λ w,
  let '(r, w') := try_except (compress_upload_and_clean env faults 50 true all_files) w in
  (exit_status r, w').

(** ** Observations on the event log *)

Definition batches (log : list Event) : list (batch_kind * list string) :=
  omap (λ e, match e with Compress k _ fs => Some (k, fs) | _ => None end) log.

Definition batch_files (log : list Event) : list string :=
  concat (batches log).*2.

Definition total_size (recs : list (string * N)) : N :=
  foldr (λ r acc, r.2 + acc) 0 recs.

(** A failed space check or a failed upload. *)
Definition failed (e : Event) : bool :=
  match e with
  | SpaceCheck false | Upload _ false => true
  | _ => false
  end.

(** The ledger as last written in [log], [start] when it has no save. *)
Definition last_saved (start : Z * gset string) (log : list Event) : Z * gset string :=
  foldl (λ acc e, match e with
                  | SaveProgress ca l => (ca, list_to_set l)
                  | _ => acc
                  end) start log.

(** What is asked of one produced batch, over the inventory [all_files]
    and the ceiling: a normal batch is a non-empty run of inventory
    records within the ceiling, an oversized one is a single record above
    it. *)
Definition batch_ok (max_size_bytes : N) (all_files : list (string * N))
    (b : batch_kind * list string) : Prop :=
  match b.1 with
  | Normal => ∃ recs, recs `sublist_of` all_files ∧ recs.*1 = b.2 ∧ recs ≠ [] ∧
                      total_size recs ≤ max_size_bytes
  | BigFile => ∃ p s, b.2 = [p] ∧ (p, s) ∈ all_files ∧ max_size_bytes < s
  end.

(** The inventory paths the ledger does not list yet, in inventory order. *)
Definition unprocessed (processed : gset string) (all_files : list (string * N)) : list string :=
  filter (λ p, p ∉ processed) all_files.*1.

(** The inventory records the ledger does not list, in inventory order. *)
Definition unprocessed_records (processed : gset string) (all_files : list (string * N)) :
    list (string * N) :=
  filter (λ f, f.1 ∉ processed) all_files.

(** Whether the last of the records fits under the ceiling: such a file is
    appended to the accumulator, a larger one is archived alone. *)
Definition last_fits (max_size_bytes : N) (recs : list (string * N)) : bool :=
  match last recs with
  | Some f => negb (max_size_bytes <? f.2)
  | None => false
  end.

(** The exception, if any, that the compression and upload of an archive
    end in. *)
Definition fault_on (faults : Faults) (name : string) : option exn :=
  if tar_fails faults name then Some TarError
  else if interrupted faults name then Some KeyboardInterrupt
  else None.

(** The log of a run that the exception [e] ended: it stops at the
    compression of an archive on which [e] occurs. *)
Definition fault_at (faults : Faults) (e : exn) (log : list Event) : Prop :=
  ∃ log1 k name files, log = log1 ++ [Compress k name files] ∧ fault_on faults name = Some e.

(** A run with exceptions against the run without: the same when it
    returns, stopped at a fault when it raises. *)
Definition refines {A} (faults : Faults) (x : result A * World) (p : A * World) : Prop :=
  match x.1 with
  | Done a => p = (a, x.2)
  | Raised e => fault_at faults e (events x.2)
  end.

(** A progress file that is missing, unreadable, not JSON, not a JSON
    object, or an object lacking one of the two keys. *)
Definition no_valid_record (f : file_state) : Prop :=
  match f with
  | Holds (JRecord (Some _) (Some _)) => False
  | _ => True
  end.

(** The world with another progress file. *)
Definition with_ledger (pf : file_state) (w : World) : World :=
  mkWorld pf (temp_files w) (space_calls w) (upload_calls w) (events w).

(** An environment in which every space check and upload succeeds, and
    one whose uploads fail from the n-th on. *)
Definition always_ok : Env := mkEnv (λ _, true) (λ _, true).

Definition upload_fails_from (n : nat) : Env :=
  mkEnv (λ _, true) (λ i, bool_decide (i < n)%nat).

Definition no_space : Env := mkEnv (λ _, false) (λ _, true).

(** [tarfile] fails on one archive; Ctrl-C arrives during one upload. *)
Definition tar_fails_on (name : string) : Faults :=
  mkFaults (λ n, bool_decide (n = name)) (λ _, false).

Definition interrupted_on (name : string) : Faults :=
  mkFaults (λ _, false) (λ n, bool_decide (n = name)).

(** ** Concrete runs used as examples *)

Definition three_files : list (string * N) := [("a", 10); ("b", 10); ("c", 5)].

(** The second upload fails: the last batch, b and c, stays on disk. *)
Definition failing_run : bool * World :=
  process_files (upload_fails_from 1) 15 (1%Z, ∅) three_files (fresh_world Absent ∅).


(** One small file, everything succeeds, a ledger is on disk. *)
Definition single_file_run : bool * World :=
  process_files always_ok 10 (1%Z, ∅) [("a", 1)]
    (fresh_world (Holds (JRecord (Some 1%Z) (Some []))) ∅).

(** A ledger left by an earlier run that processed all of [three_files]. *)
Definition old_ledger : World :=
  fresh_world (Holds (JRecord (Some 3%Z) (Some ["a"; "b"; "c"]))) ∅.

(** A valid ledger, and the same world when a save has only truncated it. *)
Definition valid_ledger : World :=
  fresh_world (Holds (JRecord (Some 5%Z) (Some ["a"]))) ∅.

Definition interrupted_save : World := (open_truncate valid_ledger).2.

(** ** Loop invariants *)

Section Invariants.
Context (max_size_bytes : N) (start : Z * gset string) (all_files : list (string * N)).

(** The accumulator is a run of inventory records within the ceiling. *)
Definition acc_inv (pre : list (string * N)) (st : Loop) : Prop :=
  ∃ recs, recs `sublist_of` pre ∧ recs.*1 = current_files st ∧
          total_size recs = current_size st ∧ current_size st ≤ max_size_bytes.

Definition batching_inv (pre : list (string * N)) (st : Loop) (w : World) : Prop :=
  acc_inv pre st ∧ Forall (batch_ok max_size_bytes all_files) (batches (events w)).

(** Archived and accumulated paths are the unprocessed ones seen so far. *)
Definition partition_inv (pre : list (string * N)) (st : Loop) (w : World) : Prop :=
  batch_files (events w) ++ current_files st = unprocessed start.2 pre
  ∧ start.2 ⊆ processed_files st
  ∧ processed_files st ⊆ start.2 ∪ list_to_set pre.*1.

Definition partition_post (b : bool) (w : World) : Prop :=
  batch_files (events w) `prefix_of` unprocessed start.2 all_files
  ∧ (b = true → batch_files (events w) = unprocessed start.2 all_files).

(** The loop variables are the ledger as last saved, no upload has failed,
    and the accumulated paths are consumed inventory paths not yet marked
    processed. *)
Definition ledger_inv (pre : list (string * N)) (st : Loop) (w : World) : Prop :=
  (current_archive st, processed_files st) = last_saved start (events w)
  ∧ (∀ name, Upload name false ∉ events w)
  ∧ (NoDup all_files.*1 →
     ∀ p, p ∈ current_files st → (p ∉ processed_files st) ∧ p ∈ pre.*1).

(** The shape of a run in which the upload of [name] failed. *)
Definition halted_on (name : string) (b : bool) (w : World) : Prop :=
  b = false ∧ name ∈ temp_files w ∧
  ∃ log k files ca l,
    events w = log ++ [Compress k name files; Upload name false; SaveProgress ca l]
    ∧ progress_file w = Holds (JRecord (Some ca) (Some l))
    ∧ (ca, list_to_set l) = last_saved start log
    ∧ (NoDup all_files.*1 → ∀ p, p ∈ files → p ∉ l).

Definition failure_post (b : bool) (w : World) : Prop :=
  ∀ name, Upload name false ∈ events w → halted_on name b w.

(** After the successful upload of the batch [files], compressed when the
    log was [log1], the archive is removed and the ledger saved with the
    sequence advanced and the batch added. *)
Definition committed (log1 : list Event) (name : string) (files : list string)
    (log2 : list Event) : Prop :=
  ∃ l log3,
    log2 = Remove name :: SaveProgress ((last_saved start log1).1 + 1) l :: log3
    ∧ list_to_set l = (last_saved start log1).2 ∪ list_to_set files.

(** Every successful upload in [log] is committed, or excused by [X]. *)
Definition saves_follow (X : batch_kind → list Event → string → Prop)
    (log : list Event) : Prop :=
  ∀ log1 k name files log2,
    log = log1 ++ Compress k name files :: Upload name true :: log2 →
    committed log1 name files log2 ∨ X k log2 name.

Definition save_inv (st : Loop) (w : World) : Prop :=
  (current_archive st, processed_files st) = last_saved start (events w)
  ∧ saves_follow (λ _ _ _, False) (events w).

(** The last batch at the end of the input, a normal one, is removed but
    not saved: the log ends with its removal. *)
Definition final_batch (b : bool) (k : batch_kind) (log2 : list Event) (name : string) : Prop :=
  k = Normal ∧ log2 = [Remove name] ∧ b = true.

Definition save_post (b : bool) (w : World) : Prop :=
  saves_follow (final_batch b) (events w)
  ∧ (b = false →
     ∃ log ca l, events w = log ++ [SaveProgress ca l]
       ∧ progress_file w = Holds (JRecord (Some ca) (Some l))
       ∧ (ca, list_to_set l) = last_saved start log)
  ∧ (b = true → progress_file w = Absent).

(** The files in the accumulator have been consumed, and some wait there
    exactly when the last unprocessed file consumed fits under the ceiling. *)
Definition tail_inv (pre : list (string * N)) (st : Loop) (w : World) : Prop :=
  start.2 ⊆ processed_files st
  ∧ processed_files st ⊆ start.2 ∪ list_to_set pre.*1
  ∧ list_to_set (current_files st) ⊆@{gset string} list_to_set pre.*1
  ∧ nonempty (current_files st) = last_fits max_size_bytes (unprocessed_records start.2 pre).

(** How the log of a run that returns [True] ends: with the removal of the
    last batch, unsaved, when the last unprocessed file fits under the
    ceiling; otherwise there is no such batch and every upload is
    committed. *)
Definition tail_post (b : bool) (w : World) : Prop :=
  b = true →
  if last_fits max_size_bytes (unprocessed_records start.2 all_files) then
    ∃ log name files,
      events w = log ++ [Compress Normal name files; Upload name true; Remove name]
  else saves_follow (λ _ _ _, False) (events w).

(** Every consumed path is processed at the start, archived or accumulated;
    no space check or upload has failed. *)
Definition cover_inv (pre : list (string * N)) (st : Loop) (w : World) : Prop :=
  (∀ p, p ∈ pre.*1 →
     p ∈ start.2 ∨ p ∈ batch_files (events w) ∨ p ∈ current_files st)
  ∧ (∀ p, p ∈ processed_files st → p ∈ start.2 ∨ p ∈ batch_files (events w))
  ∧ Forall (λ e, failed e = false) (events w).

(** A run that returns [True] has covered the inventory without a failure,
    one that returns [False] has logged a failure. *)
Definition cover_post (b : bool) (w : World) : Prop :=
  if b then
    (∀ p, p ∈ all_files.*1 → p ∈ start.2 ∨ p ∈ batch_files (events w))
    ∧ Forall (λ e, failed e = false) (events w)
  else Exists (λ e, failed e = true) (events w).

End Invariants.

(** ** The inventory walk (lines 18-36) *)

(** One [(dirpath, dirnames, filenames)] triple yielded by [os.walk]. *)
Definition walk_entry : Type := string * list string * list string.

(** [os.path.join] of two components, as [posixpath] defines it. *)
Definition path_join (a b : string) : string :=
  if String.prefix "/" b then b
  else if bool_decide (a = "") || String.prefix "/" (String.rev a) then a +:+ b
  else a +:+ "/" +:+ b.

Section FileSystem.
(** What the file system answers for a path. *)
Context (islink : string → bool) (getsize : string → N).

Definition get_dir_size (walk : list walk_entry) : N :=
  foldl (λ total_size '(dirpath, _, filenames),
           foldl (λ total_size f,
                    let fp := path_join dirpath f in
                    if negb (islink fp) then total_size + getsize fp else total_size)
                 total_size filenames)
        0 walk.

Definition get_all_files (walk : list walk_entry) : list (string * N) :=
  foldl (λ files '(dirpath, _, filenames),
           foldl (λ files f,
                    let fp := path_join dirpath f in
                    if negb (islink fp) then files ++ [(fp, getsize fp)] else files)
                 files filenames)
        [] walk.

End FileSystem.

(** Every path the walk names, directory by directory. *)
Definition walk_paths (walk : list walk_entry) : list string :=
  walk ≫= λ '(dirpath, _, filenames), path_join dirpath <$> filenames.

(** ** Further observations on the event log *)

Definition name_of (k : batch_kind) (ca : Z) : string :=
  match k with
  | Normal => archive_name ca
  | BigFile => big_file_archive ca
  end.

(** The archives compressed, with their kinds, in order. *)
Definition compressed (log : list Event) : list (batch_kind * string) :=
  omap (λ e, match e with Compress k n _ => Some (k, n) | _ => None end) log.

(** The names a run gives to batches of the kinds [ks] from sequence [ca] on. *)
Fixpoint names_from (ca : Z) (ks : list batch_kind) : list (batch_kind * string) :=
  match ks with
  | [] => []
  | k :: ks => (k, name_of k ca) :: names_from (ca + 1) ks
  end.

(** The files of the archives whose upload succeeded. *)
Fixpoint uploaded (log : list Event) : list string :=
  match log with
  | [] => []
  | Compress _ _ fs :: ((Upload _ true :: _) as rest) => fs ++ uploaded rest
  | _ :: rest => uploaded rest
  end.

Definition is_ok_upload (e : Event) : bool :=
  match e with Upload _ true => true | _ => false end.

Definition ok_uploads (log : list Event) : nat :=
  length (List.filter is_ok_upload log).

(** What must come right before an event: an upload follows the
    compression of the same archive, a removal the successful upload of the
    archive. *)
Definition comes_after (l1 : list Event) (e : Event) : Prop :=
  match e with
  | Upload n _ => ∃ k fs, [Compress k n fs] `suffix_of` l1
  | Remove n => ∃ k fs, [Compress k n fs; Upload n true] `suffix_of` l1
  | _ => True
  end.

(** What must come right after an event: every compressed archive is
    uploaded at once. *)
Definition comes_before (e : Event) (l2 : list Event) : Prop :=
  match e with
  | Compress _ n _ => ∃ ok l3, l2 = Upload n ok :: l3
  | _ => True
  end.

Definition each_event (P : list Event → Event → list Event → Prop) (log : list Event) : Prop :=
  ∀ l1 e l2, log = l1 ++ e :: l2 → P l1 e l2.

(** Both at once, for an event between [l1] and [l2]. *)
Definition in_order (l1 : list Event) (e : Event) (l2 : list Event) : Prop :=
  comes_after l1 e ∧ comes_before e l2.

(** A decimal numeral as [pretty] prints it: not empty, and with a leading
    zero only when it is the numeral 0. *)
Definition canonical_digits (s : string) : Prop :=
  s ≠ "" ∧ ∀ rest, s = String "0"%char rest → rest = "".

(** [k] zeros, the padding of [zfill]. *)
Definition zeros (k : nat) : string := String.concat "" (replicate k "0").

(** A chunk of events that opens with an upload. *)
Definition starts_with_upload (chunk : list Event) : Prop :=
  match chunk with Upload _ _ :: _ => True | _ => False end.

(** ** Further loop invariants *)

Section MoreInvariants.
Context (start : Z * gset string) (tf : gset string).

(** The archives so far carry consecutive sequence numbers, the next one
    being the loop's [current_archive]. *)
Definition numbering_inv (st : Loop) (w : World) : Prop :=
  compressed (events w) = names_from start.1 (compressed (events w)).*1
  ∧ current_archive st = (start.1 + Z.of_nat (length (compressed (events w))))%Z.


(** A save never lowers the sequence, raises it by at most one, and never
    drops a processed path. *)
Definition save_grows (l1 : list Event) (e : Event) (l2 : list Event) : Prop :=
  match e with
  | SaveProgress ca l =>
      ((last_saved start l1).1 ≤ ca ≤ (last_saved start l1).1 + 1)%Z
      ∧ (last_saved start l1).2 ⊆ list_to_set l
  | _ => True
  end.

Definition growth_inv (st : Loop) (w : World) : Prop :=
  (current_archive st, processed_files st) = last_saved start (events w)
  ∧ each_event save_grows (events w).

(** No failure so far, and the loop variables are the ledger as last saved. *)
Definition pause_inv (st : Loop) (w : World) : Prop :=
  (current_archive st, processed_files st) = last_saved start (events w)
  ∧ Forall (λ e, failed e = false) (events w).

(** A failed space check is followed by one save of the ledger as it stood. *)
Definition pause_post (b : bool) (w : World) : Prop :=
  ∀ l1 l2, events w = l1 ++ SpaceCheck false :: l2 →
    b = false
    ∧ ∃ ca l, l2 = [SaveProgress ca l]
        ∧ (ca, list_to_set l) = last_saved start l1
        ∧ progress_file w = Holds (JRecord (Some ca) (Some l)).

(** The loop variables are the start ledger advanced by the successful
    uploads, which are all the batches so far. *)
Definition uploaded_inv (st : Loop) (w : World) : Prop :=
  (current_archive st, processed_files st) = last_saved start (events w)
  ∧ processed_files st = start.2 ∪ list_to_set (uploaded (events w))
  ∧ current_archive st = (start.1 + Z.of_nat (ok_uploads (events w)))%Z
  ∧ uploaded (events w) = batch_files (events w).

Definition uploaded_post (b : bool) (w : World) : Prop :=
  if b then uploaded (events w) = batch_files (events w)
  else (load_progress w).1
       = ((start.1 + Z.of_nat (ok_uploads (events w)))%Z,
          start.2 ∪ list_to_set (uploaded (events w)))
       ∧ uploaded (events w) `prefix_of` batch_files (events w).

(** Nothing archived or accumulated was processed when the run started. *)
Definition fresh_inv (st : Loop) (w : World) : Prop :=
  start.2 ⊆ processed_files st
  ∧ ∀ p, p ∈ batch_files (events w) ++ current_files st → p ∉ start.2.

End MoreInvariants.

(** ** Further concrete runs *)

(** The first run halts on its second upload, the second resumes from the
    progress file and the staging directory the first one left. *)
Definition gib_files : list (string * N) :=
  [("a", 30 * 1024 * 1024 * 1024); ("b", 30 * 1024 * 1024 * 1024);
   ("c", 5 * 1024 * 1024 * 1024)].

Definition first_attempt : result bool * World :=
  compress_upload_and_clean (upload_fails_from 1) no_faults 50 true gib_files
    (fresh_world Absent ∅).

Definition second_attempt : result bool * World :=
  compress_upload_and_clean always_ok no_faults 50 true gib_files
    (fresh_world (progress_file first_attempt.2) (temp_files first_attempt.2)).

(** A run that finds no space at its first check. *)
Definition paused_run : bool * World :=
  process_files no_space 15 (1%Z, ∅) three_files (fresh_world Absent ∅).

(** A run in which everything succeeds. *)
Definition complete_run : bool * World :=
  process_files always_ok 15 (1%Z, ∅) three_files (fresh_world Absent ∅).

(** A walk of two directories; [/data/l] is a symbolic link. *)
Definition small_walk : list walk_entry :=
  [("/data", ["sub"], ["a"; "l"]); ("/data/sub", [], ["b"])].

Definition small_islink (p : string) : bool := bool_decide (p = "/data/l").

Definition small_getsize (p : string) : N :=
  if bool_decide (p = "/data/a") then 7 else if bool_decide (p = "/data/sub/b") then 5 else 1.

(** * Proofs *)

(** ** Running the monad *)

Ltac run_monad :=
  cbv [mbind mret M_bind M_ret save_progress tar_create upload_to_modelscope
       os_remove check_disk_space open_truncate json_dump append_file];
  cbn [progress_file temp_files space_calls upload_calls events].

Ltac loop_fields :=
  cbn [current_archive processed_files current_size current_files
       progress_file temp_files space_calls upload_calls events fst snd].

Section Pipeline.
Context (env : Env) (max_size_bytes : N).

Lemma flush_batch_eq st w :
  flush_batch env st w =
  let name := archive_name (current_archive st) in
  if upload_ok env (upload_calls w) then
    let processed := processed_files st ∪ list_to_set (current_files st) in
    (Next (mkLoop (current_archive st + 1) processed 0 []),
     mkWorld (Holds (JRecord (Some (current_archive st + 1)%Z) (Some (elements processed))))
             (({[name]} ∪ temp_files w) ∖ {[name]}) (space_calls w) (S (upload_calls w))
             (events w ++ [Compress Normal name (current_files st); Upload name true;
                           Remove name;
                           SaveProgress (current_archive st + 1) (elements processed)]))
  else
    (Return false,
     mkWorld (Holds (JRecord (Some (current_archive st)) (Some (elements (processed_files st)))))
             ({[name]} ∪ temp_files w) (space_calls w) (S (upload_calls w))
             (events w ++ [Compress Normal name (current_files st); Upload name false;
                           SaveProgress (current_archive st) (elements (processed_files st))])).
Proof.
  unfold flush_batch. run_monad.
  destruct (upload_ok env (upload_calls w)); cbn; rewrite <- ?app_assoc; reflexivity.
Qed.

Lemma big_file_eq p st w :
  big_file env p st w =
  let name := big_file_archive (current_archive st) in
  if upload_ok env (upload_calls w) then
    let processed := processed_files st ∪ {[p]} in
    (Next (mkLoop (current_archive st + 1) processed (current_size st) (current_files st)),
     mkWorld (Holds (JRecord (Some (current_archive st + 1)%Z) (Some (elements processed))))
             (({[name]} ∪ temp_files w) ∖ {[name]}) (space_calls w) (S (upload_calls w))
             (events w ++ [Compress BigFile name [p]; Upload name true; Remove name;
                           SaveProgress (current_archive st + 1) (elements processed)]))
  else
    (Return false,
     mkWorld (Holds (JRecord (Some (current_archive st)) (Some (elements (processed_files st)))))
             ({[name]} ∪ temp_files w) (space_calls w) (S (upload_calls w))
             (events w ++ [Compress BigFile name [p]; Upload name false;
                           SaveProgress (current_archive st) (elements (processed_files st))])).
Proof.
  unfold big_file. run_monad.
  destruct (upload_ok env (upload_calls w)); cbn; rewrite <- ?app_assoc; reflexivity.
Qed.

Lemma last_batch_eq st w :
  last_batch env st w =
  if nonempty (current_files st) then
    let name := archive_name (current_archive st) in
    if upload_ok env (upload_calls w) then
      (Next (mkLoop (current_archive st)
                    (processed_files st ∪ list_to_set (current_files st))
                    (current_size st) (current_files st)),
       mkWorld (progress_file w) (({[name]} ∪ temp_files w) ∖ {[name]})
               (space_calls w) (S (upload_calls w))
               (events w ++ [Compress Normal name (current_files st); Upload name true;
                             Remove name]))
    else
      (Return false,
       mkWorld (Holds (JRecord (Some (current_archive st))
                               (Some (elements (processed_files st)))))
               ({[name]} ∪ temp_files w) (space_calls w) (S (upload_calls w))
               (events w ++ [Compress Normal name (current_files st); Upload name false;
                             SaveProgress (current_archive st)
                                          (elements (processed_files st))]))
  else (Next st, w).
Proof.
  unfold last_batch. destruct (nonempty (current_files st)); [|reflexivity].
  run_monad.
  destruct (upload_ok env (upload_calls w)); cbn; rewrite <- ?app_assoc; reflexivity.
Qed.

(** The invariant rule of the [for] loop: [I pre] holds when the files
    [pre] have been consumed, [Q] at an early [return]. *)
Lemma for_files_inv (I : list (string * N) → Loop → World → Prop)
    (Q : bool → World → Prop) (all_files : list (string * N)) :
  (∀ pre f rest st w, all_files = pre ++ f :: rest → I pre st w →
     match loop_body env max_size_bytes f st w with
     | (Next st', w') => I (pre ++ [f]) st' w'
     | (Return b, w') => Q b w'
     end) →
  ∀ rest pre st w, all_files = pre ++ rest → I pre st w →
    match for_files env max_size_bytes rest st w with
    | (Next st', w') => I all_files st' w'
    | (Return b, w') => Q b w'
    end.
Proof.
  intros Hbody rest. induction rest as [|f rest IH]; intros pre st w Hall HI.
  - rewrite app_nil_r in Hall. subst pre. exact HI.
  - cbn [for_files]. cbv [mbind M_bind].
    specialize (Hbody pre f rest st w Hall HI).
    destruct (loop_body env max_size_bytes f st w) as [[st'|b] w']; [|exact Hbody].
    apply (IH (pre ++ [f])); [|exact Hbody].
    rewrite <- app_assoc. exact Hall.
Qed.

(** The same for the whole of [process_files]. *)
Lemma process_files_inv (I : list (string * N) → Loop → World → Prop)
    (Q : bool → World → Prop) (start : Z * gset string)
    (all_files : list (string * N)) (w : World) :
  I [] (mkLoop start.1 start.2 0 []) w →
  (∀ pre f rest st w, all_files = pre ++ f :: rest → I pre st w →
     match loop_body env max_size_bytes f st w with
     | (Next st', w') => I (pre ++ [f]) st' w'
     | (Return b, w') => Q b w'
     end) →
  (∀ st w, I all_files st w →
     match last_batch env st w with
     | (Next _, w') => Q true (clear_progress w').2
     | (Return b, w') => Q b w'
     end) →
  Q (process_files env max_size_bytes start all_files w).1
    (process_files env max_size_bytes start all_files w).2.
Proof.
  intros Hinit Hbody Hlast. unfold process_files. cbv [mbind M_bind].
  pose proof (for_files_inv I Q all_files Hbody all_files [] _ w eq_refl Hinit) as Hloop.
  destruct (for_files env max_size_bytes all_files _ w) as [[st'|b] w']; [|exact Hloop].
  specialize (Hlast st' w' Hloop).
  destruct (last_batch env st' w') as [[st''|b] w'']; [|exact Hlast].
  destruct (clear_progress w'') as [[] w3]. exact Hlast.
Qed.

End Pipeline.

(** Case analysis of one iteration: skipped, paused, appended, or a flush
    and/or an oversized file, each with its upload outcome. *)
Ltac body_cases :=
  lazymatch goal with
  | |- context [loop_body ?env ?max ?f ?st ?w] =>
      unfold loop_body;
      destruct (decide (f.1 ∈ processed_files st)) as [Hin|Hnin];
      [ cbv [mret M_ret]
      | run_monad;
        destruct (disk_ok env (space_calls w)) eqn:Hdisk; cbn [negb];
        [ destruct ((max <? current_size st + f.2) && nonempty (current_files st)
                    || (max <? f.2)) eqn:Htrig;
          [ destruct (nonempty (current_files st)) eqn:Hne;
            [ rewrite flush_batch_eq; cbn zeta; cbn [upload_calls];
              destruct (upload_ok env (upload_calls w)) eqn:Hup;
              [ destruct (max <? f.2) eqn:Hbig;
                [ rewrite big_file_eq; cbn zeta; loop_fields;
                  destruct (upload_ok env (S (upload_calls w))) eqn:Hup2
                | ]
              | ]
            | destruct (max <? f.2) eqn:Hbig;
              [| rewrite andb_false_r in Htrig; discriminate Htrig];
              rewrite big_file_eq; cbn zeta; loop_fields;
              destruct (upload_ok env (upload_calls w)) eqn:Hup ]
          | ]
        | ]
      ]
  end.

Ltac last_cases :=
  lazymatch goal with
  | |- context [last_batch ?env ?st ?w] =>
      rewrite last_batch_eq;
      destruct (nonempty (current_files st)) eqn:Hne;
      [ cbn zeta; destruct (upload_ok env (upload_calls w)) eqn:Hup | ]
  end.

(** ** Small facts on lists, logs and the ledger file *)

Lemma total_size_snoc recs r : total_size (recs ++ [r]) = total_size recs + r.2.
Proof.
  unfold total_size. induction recs as [|x recs IH]; cbn; [lia|].
  cbn in IH. rewrite IH. lia.
Qed.

Lemma batches_app log l : batches (log ++ l) = batches log ++ batches l.
Proof. apply omap_app. Qed.

Lemma batch_files_app log l : batch_files (log ++ l) = batch_files log ++ batch_files l.
Proof. unfold batch_files. by rewrite batches_app, fmap_app, concat_app. Qed.

Lemma batch_files_cons e log :
  batch_files (e :: log) =
  match e with Compress _ _ fs => fs | _ => [] end ++ batch_files log.
Proof. by destruct e. Qed.

Lemma batch_files_nil : batch_files [] = [].
Proof. done. Qed.

Lemma initial_progress_world resume w : (initial_progress resume w).2 = w.
Proof.
  destruct resume; [|done]. unfold initial_progress, load_progress.
  destruct (path_exists _); [|done]. by destruct (read_ledger _).
Qed.

Lemma three_files_NoDup : NoDup three_files.*1.
Proof. cbn. repeat (apply NoDup_cons; split; [set_solver|]). apply NoDup_nil_2. Qed.

Lemma nonempty_false {A} (l : list A) : nonempty l = false → l = [].
Proof. by destruct l. Qed.

Lemma clear_progress_events w : events (clear_progress w).2 = events w.
Proof. unfold clear_progress. by destruct (path_exists _). Qed.

Lemma clear_progress_file w : progress_file (clear_progress w).2 = Absent.
Proof. unfold clear_progress. by destruct (progress_file w) eqn:E; cbn; rewrite ?E. Qed.

Lemma last_saved_app start log l :
  last_saved start (log ++ l) = last_saved (last_saved start log) l.
Proof. apply foldl_app. Qed.

(** ** C1: batches respect the ceiling *)

Section Batching.
Context (env : Env) (max_size_bytes : N).

Lemma acc_inv_batch_ok all_files pre rest st :
  all_files = pre ++ rest → acc_inv max_size_bytes pre st →
  nonempty (current_files st) = true →
  batch_ok max_size_bytes all_files (Normal, current_files st).
Proof.
  intros -> (recs & Hsub & Hmap & Hsz & Hle) Hne. exists recs. cbn.
  split; [by apply sublist_inserts_r|]. split; [done|]. split; [|lia].
  intros ->. cbn in Hmap. rewrite <- Hmap in Hne. discriminate.
Qed.

Lemma acc_inv_empty pre ca S : acc_inv max_size_bytes pre (mkLoop ca S 0 []).
Proof. exists []. cbn. split; [apply sublist_nil_l|]. repeat split; lia. Qed.

Lemma big_batch_ok all_files pre f rest :
  all_files = pre ++ f :: rest → (max_size_bytes <? f.2) = true →
  batch_ok max_size_bytes all_files (BigFile, [f.1]).
Proof.
  intros -> Hbig. exists f.1, f.2. cbn. split; [done|]. split.
  - destruct f. cbn. set_solver.
  - by apply N.ltb_lt.
Qed.

Lemma acc_inv_skip pre f st :
  acc_inv max_size_bytes pre st → acc_inv max_size_bytes (pre ++ [f]) st.
Proof.
  intros (recs & Hsub & Hrest). exists recs. split; [by apply sublist_inserts_r|done].
Qed.

Lemma acc_inv_append pre f st :
  acc_inv max_size_bytes pre st → current_size st + f.2 ≤ max_size_bytes →
  acc_inv max_size_bytes (pre ++ [f])
    (mkLoop (current_archive st) (processed_files st)
            (current_size st + f.2) (current_files st ++ [f.1])).
Proof.
  intros (recs & Hsub & Hmap & Hsz & Hle) Hfit. exists (recs ++ [f]). cbn.
  split; [by apply sublist_app|]. split; [by rewrite fmap_app, Hmap|].
  split; [|done]. rewrite total_size_snoc. lia.
Qed.

Lemma acc_inv_nil pre st :
  acc_inv max_size_bytes pre st → nonempty (current_files st) = false → current_size st = 0.
Proof.
  intros (recs & _ & Hmap & Hsz & _) Hne. apply nonempty_false in Hne.
  rewrite Hne in Hmap. apply fmap_nil_inv in Hmap. subst recs. by rewrite <- Hsz.
Qed.

Ltac split_batches :=
  rewrite ?batches_app; simpl (batches (_ :: _)); rewrite ?app_nil_r;
  repeat match goal with
  | |- _ ∧ _ => split
  | |- Forall _ (_ ++ _) => apply Forall_app; split
  | |- Forall _ [_] => apply Forall_singleton
  | |- Forall _ [] => apply Forall_nil_2
  end.

Lemma batching_body all_files pre f rest st w :
  all_files = pre ++ f :: rest → batching_inv max_size_bytes all_files pre st w →
  match loop_body env max_size_bytes f st w with
  | (Next st', w') => batching_inv max_size_bytes all_files (pre ++ [f]) st' w'
  | (Return b, w') => Forall (batch_ok max_size_bytes all_files) (batches (events w'))
  end.
Proof.
  intros Hall [Hacc Hlog].
  pose proof (acc_inv_batch_ok all_files pre (f :: rest) st Hall Hacc) as Hflush.
  pose proof (big_batch_ok all_files pre f rest Hall) as Hbigok.
  body_cases; unfold batching_inv; loop_fields; split_batches;
    auto using acc_inv_skip, acc_inv_empty.
  - apply (acc_inv_append pre f (mkLoop _ _ 0 [])); [apply acc_inv_empty|].
    cbn. apply N.ltb_ge in Hbig. lia.
  - apply acc_inv_append; [done|].
    apply orb_false_iff in Htrig as [Hsum Hbig]. apply N.ltb_ge in Hbig.
    apply andb_false_iff in Hsum as [Hsum|Hne]; [by apply N.ltb_ge in Hsum|].
    rewrite (acc_inv_nil pre st Hacc Hne). lia.
Qed.

Lemma batching_last all_files st w :
  batching_inv max_size_bytes all_files all_files st w →
  match last_batch env st w with
  | (Next _, w') =>
      Forall (batch_ok max_size_bytes all_files) (batches (events (clear_progress w').2))
  | (Return b, w') => Forall (batch_ok max_size_bytes all_files) (batches (events w'))
  end.
Proof.
  intros [Hacc Hlog].
  pose proof (acc_inv_batch_ok all_files all_files [] st
                (eq_sym (app_nil_r _)) Hacc) as Hflush.
  last_cases; rewrite ?clear_progress_events; loop_fields; split_batches; auto.
Qed.

(** The boundary itself: a file that fills the batch exactly is appended. *)
Lemma loop_body_exact_fit f st w :
  f.1 ∉ processed_files st → disk_ok env (space_calls w) = true →
  current_size st + f.2 = max_size_bytes →
  loop_body env max_size_bytes f st w =
  (Next (mkLoop (current_archive st) (processed_files st)
                (current_size st + f.2) (current_files st ++ [f.1])),
   mkWorld (progress_file w) (temp_files w) (S (space_calls w)) (upload_calls w)
           (events w ++ [SpaceCheck true])).
Proof.
  intros Hnew Hspace Hfit. unfold loop_body.
  destruct (decide (f.1 ∈ processed_files st)); [done|].
  run_monad. rewrite Hspace. cbn [negb].
  assert ((max_size_bytes <? current_size st + f.2) = false) as ->
    by (apply N.ltb_ge; lia).
  assert ((max_size_bytes <? f.2) = false) as -> by (apply N.ltb_ge; lia).
  reflexivity.
Qed.

(** C1. Whatever the inventory, the ledger the run starts from, the
    ceiling and the outcomes of the space checks and uploads: every normal
    batch the run compresses is a non-empty run of inventory records whose
    sizes add up to at most the ceiling, every oversized batch is exactly
    one inventory record larger than the ceiling, and an unprocessed file
    whose size brings the accumulator exactly to the ceiling is appended to
    the current batch, with no archive produced in that iteration. *)
Theorem batches_within_ceiling (start : Z * gset string)
    (all_files : list (string * N)) (pf : file_state) (tf : gset string) :
  Forall (batch_ok max_size_bytes all_files)
    (batches (events (process_files env max_size_bytes start all_files
                        (fresh_world pf tf)).2))
  ∧ (∀ f st w,
       f.1 ∉ processed_files st → disk_ok env (space_calls w) = true →
       current_size st + f.2 = max_size_bytes →
       (loop_body env max_size_bytes f st w).1 =
         Next (mkLoop (current_archive st) (processed_files st)
                      max_size_bytes (current_files st ++ [f.1]))
       ∧ batches (events (loop_body env max_size_bytes f st w).2) = batches (events w)).
Proof.
  split.
  - apply (process_files_inv env max_size_bytes (batching_inv max_size_bytes all_files)
             (λ _ w, Forall (batch_ok max_size_bytes all_files) (batches (events w)))).
    + split; [apply acc_inv_empty|]. cbn. apply Forall_nil_2.
    + intros pre f rest st w. apply batching_body.
    + intros st w. apply batching_last.
  - intros f st w Hnew Hspace Hfit.
    rewrite loop_body_exact_fit by done. cbn [fst snd events].
    rewrite Hfit, batches_app, app_nil_r. done.
Qed.

End Batching.

Lemma batches_within_ceiling_witness :
  Forall (batch_ok 25 three_files)
    (batches (events (process_files always_ok 25 (1%Z, ∅) three_files
                        (fresh_world Absent ∅)).2))
  ∧ (loop_body always_ok 25 ("c", 5) (mkLoop 1 ∅ 20 ["a"; "b"]) (fresh_world Absent ∅)).1
    = Next (mkLoop 1 ∅ 25 ["a"; "b"; "c"]).
Proof.
  destruct (batches_within_ceiling always_ok 25 (1%Z, ∅) three_files Absent ∅) as [H1 H2].
  split; [exact H1|].
  apply (H2 ("c", 5) (mkLoop 1 ∅ 20 ["a"; "b"]) (fresh_world Absent ∅));
    [set_solver | reflexivity | reflexivity].
Defined.

(** ** The return value *)

Section Result.
Context (env : Env) (max_size_bytes : N) (start : Z * gset string).

Ltac log_facts :=
  repeat match goal with
  | |- Forall _ (_ ++ _) => apply Forall_app; split; [done|]
  | |- Forall _ (_ :: _) => apply Forall_cons; split; [done|]
  | |- Forall _ [] => apply Forall_nil_2
  | |- Exists _ (_ ++ _) => apply Exists_app; right
  | |- Exists _ (SpaceCheck false :: _) => by apply Exists_cons_hd
  | |- Exists _ (Upload _ false :: _) => by apply Exists_cons_hd
  | |- Exists _ (_ :: _) => apply Exists_cons_tl
  end.

Lemma cover_body all_files pre f rest st w :
  all_files = pre ++ f :: rest → cover_inv start pre st w →
  match loop_body env max_size_bytes f st w with
  | (Next st', w') => cover_inv start (pre ++ [f]) st' w'
  | (Return b, w') => cover_post start all_files b w'
  end.
Proof.
  intros _ (Hseen & Hproc & Hok).
  body_cases; unfold cover_inv, cover_post; loop_fields;
    rewrite <- ?app_assoc; cbn [app].
  all: try (split; [|split]; [| |by log_facts]).
  all: try by log_facts.
  all: rewrite ?batch_files_app, ?batch_files_cons, ?batch_files_nil; cbn [app];
    rewrite ?app_nil_r.
  all: intros p; specialize (Hseen p); specialize (Hproc p); rewrite ?fmap_app.
  all: set_solver.
Qed.

Lemma cover_last all_files st w :
  cover_inv start all_files st w →
  match last_batch env st w with
  | (Next _, w') => cover_post start all_files true (clear_progress w').2
  | (Return b, w') => cover_post start all_files b w'
  end.
Proof.
  intros (Hseen & Hproc & Hok).
  last_cases; unfold cover_post; rewrite ?clear_progress_events; loop_fields.
  all: try (apply nonempty_false in Hne; rewrite Hne in * ).
  all: try (split; [|by log_facts]).
  all: try by log_facts.
  all: rewrite ?batch_files_app, ?batch_files_cons, ?batch_files_nil; cbn [app];
    rewrite ?app_nil_r.
  all: intros p; specialize (Hseen p); set_solver.
Qed.

Lemma process_files_cover all_files pf tf :
  cover_post start all_files
    (process_files env max_size_bytes start all_files (fresh_world pf tf)).1
    (process_files env max_size_bytes start all_files (fresh_world pf tf)).2.
Proof.
  apply (process_files_inv env max_size_bytes (cover_inv start) (cover_post start all_files)).
  - split; [|split]; [set_solver|set_solver|apply Forall_nil_2].
  - intros pre f rest st w. apply cover_body.
  - intros st w. apply cover_last.
Qed.

Lemma process_files_true_iff all_files pf tf :
  (process_files env max_size_bytes start all_files (fresh_world pf tf)).1 = true
  ↔ Forall (λ e, failed e = false)
      (events (process_files env max_size_bytes start all_files (fresh_world pf tf)).2).
Proof.
  pose proof (process_files_cover all_files pf tf) as H. unfold cover_post in H.
  destruct (process_files env max_size_bytes start all_files (fresh_world pf tf)).1.
  - split; [intros _; apply H|done].
  - split; [done|]. intros Hall. apply Exists_exists in H as (e & He & Hf).
    rewrite Forall_forall in Hall. rewrite (Hall e He) in Hf. done.
Qed.

End Result.

(** When every space check and every upload succeeds the run returns [True]. *)
Lemma process_files_all_ok env max_size_bytes start all_files w :
  (∀ n, disk_ok env n = true) → (∀ n, upload_ok env n = true) →
  (process_files env max_size_bytes start all_files w).1 = true.
Proof.
  intros Hd Hu.
  apply (process_files_inv env max_size_bytes (λ _ _ _, True) (λ b _, b = true)); [done| |].
  - intros pre f rest st w0 _ _. body_cases; try done.
    all: first [by rewrite Hd in Hdisk | by rewrite Hu in Hup | by rewrite Hu in Hup2].
  - intros st w0 _. last_cases; try done. by rewrite Hu in Hup.
Qed.

Lemma with_ledger_same w : with_ledger (progress_file w) w = w.
Proof. by destruct w. Qed.

(** ** C2: the batches partition the unprocessed inventory *)

Section Partition.
Context (env : Env) (max_size_bytes : N) (start : Z * gset string).

Lemma unprocessed_snoc_old (S0 : gset string) pre (f : string * N) :
  f.1 ∈ S0 → unprocessed S0 (pre ++ [f]) = unprocessed S0 pre.
Proof.
  intros Hin. unfold unprocessed. rewrite fmap_app, filter_app.
  change ([f].*1) with [f.1].
  rewrite filter_cons_False by (intros H; by apply H). by rewrite filter_nil, app_nil_r.
Qed.

Lemma unprocessed_snoc_new (S0 : gset string) pre (f : string * N) :
  f.1 ∉ S0 → unprocessed S0 (pre ++ [f]) = unprocessed S0 pre ++ [f.1].
Proof.
  intros Hin. unfold unprocessed. rewrite fmap_app, filter_app.
  change ([f].*1) with [f.1]. by rewrite filter_cons_True by done.
Qed.

Lemma unprocessed_prefix (S0 : gset string) pre rest :
  unprocessed S0 pre `prefix_of` unprocessed S0 (pre ++ rest).
Proof. unfold unprocessed. rewrite fmap_app, filter_app. by apply prefix_app_r. Qed.

Lemma unprocessed_subseteq (S0 : gset string) pre p :
  p ∈ unprocessed S0 pre → p ∈ pre.*1.
Proof. unfold unprocessed. rewrite list_elem_of_filter. tauto. Qed.

Lemma partition_body all_files pre f rest st w :
  NoDup all_files.*1 →
  all_files = pre ++ f :: rest → partition_inv start pre st w →
  match loop_body env max_size_bytes f st w with
  | (Next st', w') => partition_inv start (pre ++ [f]) st' w'
  | (Return b, w') => partition_post start all_files b w'
  end.
Proof.
  intros Hnodup Hall (Hfiles & Hlo & Hhi).
  assert (f.1 ∉ pre.*1) as Hfresh.
  { rewrite Hall, fmap_app, fmap_cons in Hnodup.
    apply NoDup_app in Hnodup as (_ & Hdisj & _). intros Hin.
    apply (Hdisj _ Hin). set_solver. }
  assert (unprocessed start.2 (pre ++ [f]) `prefix_of` unprocessed start.2 all_files) as Hpre'.
  { rewrite Hall. replace (pre ++ f :: rest) with ((pre ++ [f]) ++ rest)
      by (by rewrite <- app_assoc). apply unprocessed_prefix. }
  assert (unprocessed start.2 pre `prefix_of` unprocessed start.2 all_files) as Hpre.
  { rewrite Hall. apply unprocessed_prefix. }
  assert (list_to_set (current_files st) ⊆@{gset string} list_to_set pre.*1) as Hcur.
  { intros p Hp. apply elem_of_list_to_set in Hp. apply elem_of_list_to_set.
    apply (unprocessed_subseteq start.2). rewrite <- Hfiles. set_solver. }
  body_cases; unfold partition_inv, partition_post; loop_fields;
    rewrite ?batch_files_app, ?batch_files_cons, ?batch_files_nil; cbn [app];
    rewrite ?app_nil_r.
  1: { (* already processed *)
    rewrite unprocessed_snoc_old by set_solver. rewrite fmap_app. set_solver. }
  all: rewrite unprocessed_snoc_new in * by set_solver.
  all: rewrite <- Hfiles in *; rewrite ?fmap_app.
  all: try (apply nonempty_false in Hne; rewrite Hne in *).
  all: rewrite ?app_nil_r in *.
  all: repeat match goal with
       | |- _ ∧ (false = true → _) => split; [|discriminate]
       | |- _ = _ ∧ _ => split; [by rewrite <- ?app_assoc|]
       end.
  all: try done.
  all: try set_solver.
  etrans; [|exact Hpre]. by apply prefix_app_r.
Qed.

Lemma partition_last all_files st w :
  partition_inv start all_files st w →
  match last_batch env st w with
  | (Next _, w') => partition_post start all_files true (clear_progress w').2
  | (Return b, w') => partition_post start all_files b w'
  end.
Proof.
  intros (Hfiles & _ & _).
  last_cases; unfold partition_post; rewrite ?clear_progress_events; loop_fields;
    rewrite ?batch_files_app, ?batch_files_cons, ?batch_files_nil; cbn [app];
    rewrite ?app_nil_r.
  all: try (apply nonempty_false in Hne; rewrite Hne in * ).
  all: rewrite ?app_nil_r in *.
  all: rewrite Hfiles; done.
Qed.


End Partition.



(** ** C3: a failed upload halts the run and leaves the ledger as it was *)

Section Failure.
Context (env : Env) (max_size_bytes : N) (start : Z * gset string).

Lemma failure_body all_files pre f rest st w :
  all_files = pre ++ f :: rest →
  ledger_inv start all_files pre st w →
  match loop_body env max_size_bytes f st w with
  | (Next st', w') => ledger_inv start all_files (pre ++ [f]) st' w'
  | (Return b, w') => failure_post start all_files b w'
  end.
Proof.
  intros Hall (Hled & Hnone & Hacc).
  assert (NoDup all_files.*1 → f.1 ∉ current_files st) as Hfresh.
  { intros Hnodup. specialize (Hacc Hnodup).
    rewrite Hall, fmap_app, fmap_cons in Hnodup.
    apply NoDup_app in Hnodup as (_ & Hdisj & _). intros Hin.
    apply (Hdisj f.1); [by apply Hacc|]. set_solver. }
  body_cases; unfold ledger_inv, failure_post; loop_fields.
  all: try (apply nonempty_false in Hne; rewrite Hne in * ).
  all: try (split;
            [ rewrite ?last_saved_app, <- ?Hled; cbn;
              by rewrite ?list_to_set_elements_L
            | split;
              [ intros name; specialize (Hnone name); set_solver
              | intros Hnodup p Hp; specialize (Hfresh Hnodup);
                specialize (Hacc Hnodup); rewrite fmap_app; set_solver ] ]).
  all: intros name Hfail; specialize (Hnone name).
  all: try (exfalso; set_solver).
  all: match type of Hfail with
       | _ ∈ _ ++ [_; Upload ?n false; _] => assert (name = n) as -> by set_solver
       end.
  all: split; [done|]; split; [set_solver|].
  all: eexists _, _, _, _, _; split; [reflexivity|]; split; [reflexivity|].
  all: split; [rewrite ?last_saved_app, <- ?Hled; cbn; by rewrite ?list_to_set_elements_L|].
  all: intros Hnodup p Hp; specialize (Hfresh Hnodup); specialize (Hacc Hnodup);
       rewrite elem_of_elements; set_solver.
Qed.

Lemma failure_last all_files st w :
  ledger_inv start all_files all_files st w →
  match last_batch env st w with
  | (Next _, w') => failure_post start all_files true (clear_progress w').2
  | (Return b, w') => failure_post start all_files b w'
  end.
Proof.
  intros (Hled & Hnone & Hacc).
  last_cases; unfold failure_post; rewrite ?clear_progress_events; loop_fields.
  all: intros name Hfail; specialize (Hnone name).
  all: try (exfalso; set_solver).
  assert (name = archive_name (current_archive st)) as -> by set_solver.
  split; [done|]; split; [set_solver|].
  eexists _, _, _, _, _; split; [reflexivity|]; split; [reflexivity|].
  split; [rewrite <- ?Hled; cbn; by rewrite ?list_to_set_elements_L|].
  intros Hnodup p Hp. specialize (Hacc Hnodup). rewrite elem_of_elements. set_solver.
Qed.

(** C3. In every run, if the upload of an archive fails then the run
    returns [False], the archive is still in the staging directory, the
    failed upload is followed by nothing but one save of the ledger, the
    progress file holds that save, and its sequence number and processed
    set are those of the ledger as it was when the batch was started (the
    last save before the batch, or the ledger the run started from). For an
    inventory of distinct paths no file of the failed batch is in the saved
    processed list. *)
Theorem upload_failure_halts (all_files : list (string * N))
    (pf : file_state) (tf : gset string) (name : string) :
  let r := process_files env max_size_bytes start all_files (fresh_world pf tf) in
  Upload name false ∈ events r.2 →
  r.1 = false
  ∧ name ∈ temp_files r.2
  ∧ ∃ log k files ca l,
      events r.2 = log ++ [Compress k name files; Upload name false; SaveProgress ca l]
      ∧ progress_file r.2 = Holds (JRecord (Some ca) (Some l))
      ∧ (ca, list_to_set l) = last_saved start log
      ∧ (NoDup all_files.*1 → ∀ p, p ∈ files → p ∉ l).
Proof.
  intros r.
  assert (failure_post start all_files r.1 r.2) as Hpost.
  { apply (process_files_inv env max_size_bytes (ledger_inv start all_files)
             (failure_post start all_files)).
    - split; [by destruct start|]. split; [intros n; cbn; set_solver|].
      intros _ p. cbn. set_solver.
    - intros pre f rest st w. apply failure_body.
    - intros st w. apply failure_last. }
  apply Hpost.
Qed.

End Failure.

Lemma upload_failure_halts_witness :
  failing_run.1 = false
  ∧ "ego4d_part_002.tar.gz" ∈ temp_files failing_run.2
  ∧ progress_file failing_run.2 = Holds (JRecord (Some 2%Z) (Some ["a"])).
Proof.
  destruct (upload_failure_halts (upload_fails_from 1) 15 (1%Z, ∅) three_files Absent ∅
              "ego4d_part_002.tar.gz") as (H1 & H2 & _).
  - replace (events _) with
      [SpaceCheck true; SpaceCheck true;
       Compress Normal "ego4d_part_001.tar.gz" ["a"];
       Upload "ego4d_part_001.tar.gz" true; Remove "ego4d_part_001.tar.gz";
       SaveProgress 2 ["a"]; SpaceCheck true;
       Compress Normal "ego4d_part_002.tar.gz" ["b"; "c"];
       Upload "ego4d_part_002.tar.gz" false; SaveProgress 2 ["a"]]
      by (vm_compute; reflexivity).
    set_solver.
  - split; [exact H1|]. split; [exact H2|]. vm_compute. reflexivity.
Defined.

(** ** C4: when the ledger is saved *)

Lemma split_app_pair {A} (log new log1 : list A) (a b : A) (log2 : list A) :
  log ++ new = log1 ++ a :: b :: log2 →
  (∃ t, log = log1 ++ a :: b :: t ∧ log2 = t ++ new)
  ∨ (log = log1 ++ [a] ∧ new = b :: log2)
  ∨ (∃ n1, log1 = log ++ n1 ∧ new = n1 ++ a :: b :: log2).
Proof.
  revert log1. induction log as [|x log IH]; intros log1 H.
  - right. right. exists log1. by split.
  - destruct log1 as [|y log1].
    + cbn in H. injection H as -> H. destruct log as [|z log].
      * cbn in H. right. left. by split.
      * cbn in H. injection H as -> H. left. exists log. by split; [|].
    + cbn in H. injection H as -> H. destruct (IH _ H) as [(t & -> & ->)|[[-> ->]|(n1 & -> & ->)]].
      * left. by exists t.
      * right. by left.
      * right. right. by exists n1.
Qed.

Lemma saves_follow_app start X log chunk :
  saves_follow start (λ _ _ _, False) log →
  (∀ n log2, chunk ≠ Upload n true :: log2) →
  saves_follow (last_saved start log) X chunk →
  saves_follow start X (log ++ chunk).
Proof.
  intros Hlog Hhead Hchunk log1 k name files log2 Heq.
  apply split_app_pair in Heq as [(t & -> & ->)|[[-> ->]|(n1 & -> & ->)]].
  - destruct (Hlog _ _ _ _ _ eq_refl) as [(l & log3 & -> & Hl)|[]].
    left. exists l, (log3 ++ chunk). by split.
  - by destruct (Hhead name log2).
  - destruct (Hchunk _ _ _ _ _ eq_refl) as [(l & log3 & -> & Hl)|HX]; [|by right].
    left. exists l, log3. by rewrite last_saved_app.
Qed.

Ltac solve_ledger Hled :=
  rewrite ?last_saved_app, <- ?Hled; cbn [last_saved foldl fst snd];
  rewrite ?list_to_set_elements_L; cbn [list_to_set foldr]; 
  try done; try (f_equal; set_solver).

(** Every way of finding a successful upload in a concrete chunk. *)
Ltac chunk_follows Hled :=
  rewrite <- ?Hled;
  let log1 := fresh "log1" in
  let Heq := fresh "Heq" in
  intros log1 ? ? ? ? Heq;
  do 10 (try (destruct log1 as [|? log1]; simplify_eq/=));
  try (left; eexists _, _; split; [reflexivity|];
       cbn [last_saved foldl fst snd]; rewrite ?list_to_set_elements_L;
       cbn [list_to_set foldr]; set_solver).

Ltac solve_follow Hlog Hled :=
  apply saves_follow_app; [exact Hlog | intros; discriminate | chunk_follows Hled].

Ltac solve_exit Hled :=
  intros _;
  lazymatch goal with
  | |- ∃ log ca l, ?L ++ ?chunk = _ ∧ _ =>
      exists (L ++ removelast chunk); cbn [removelast];
      eexists _, _; split; [by rewrite <- app_assoc|];
      split; [reflexivity|]; solve_ledger Hled
  end.

Section Saving.
Context (env : Env) (max_size_bytes : N) (start : Z * gset string).

Lemma save_body f st w :
  save_inv start st w →
  match loop_body env max_size_bytes f st w with
  | (Next st', w') => save_inv start st' w'
  | (Return b, w') => save_post start b w'
  end.
Proof.
  intros [Hled Hlog].
  body_cases; unfold save_inv, save_post; loop_fields;
    rewrite <- ?app_assoc; cbn [app].
  all: repeat match goal with
       | |- _ ∧ _ => split
       | |- false = true → _ => discriminate
       | |- false = false → _ => solve_exit Hled
       | |- saves_follow _ _ (_ ++ _) => solve_follow Hlog Hled
       | |- _ = last_saved _ _ => solve_ledger Hled
       end.
  exact Hlog.
Qed.

Lemma saves_follow_weaken X log :
  saves_follow start (λ _ _ _, False) log → saves_follow start X log.
Proof. intros H log1 k name files log2 Heq. destruct (H _ _ _ _ _ Heq) as [?|[]]. by left. Qed.

Lemma save_last st w :
  save_inv start st w →
  match last_batch env st w with
  | (Next _, w') => save_post start true (clear_progress w').2
  | (Return b, w') => save_post start b w'
  end.
Proof.
  intros [Hled Hlog].
  last_cases; unfold save_post; rewrite ?clear_progress_events, ?clear_progress_file;
    loop_fields.
  all: repeat match goal with
       | |- _ ∧ _ => split
       | |- false = true → _ => discriminate
       | |- true = false → _ => discriminate
       | |- true = true → _ => done
       | |- false = false → _ => solve_exit Hled
       | |- saves_follow _ _ (_ ++ _) => apply saves_follow_app; [exact Hlog | intros; discriminate |]
       | |- saves_follow _ _ (events _) => by apply saves_follow_weaken
       end.
  - intros log1 ? ? ? ? Heq.
    do 4 (try (destruct log1 as [|? log1]; simplify_eq/=)).
    right. done.
  - intros log1 ? ? ? ? Heq.
    do 4 (try (destruct log1 as [|? log1]; simplify_eq/=)).
Qed.

Lemma unprocessed_records_snoc_old (S0 : gset string) pre (f : string * N) :
  f.1 ∈ S0 → unprocessed_records S0 (pre ++ [f]) = unprocessed_records S0 pre.
Proof.
  intros Hin. unfold unprocessed_records. rewrite filter_app.
  rewrite filter_cons_False by (intros H; by apply H). by rewrite filter_nil, app_nil_r.
Qed.

Lemma last_fits_snoc_new (S0 : gset string) pre (f : string * N) :
  f.1 ∉ S0 →
  last_fits max_size_bytes (unprocessed_records S0 (pre ++ [f])) = negb (max_size_bytes <? f.2).
Proof.
  intros Hin. unfold unprocessed_records, last_fits. rewrite filter_app.
  rewrite filter_cons_True by done. by rewrite filter_nil, last_snoc.
Qed.

Lemma nonempty_snoc {A} (l : list A) (x : A) : nonempty (l ++ [x]) = true.
Proof. by destruct l. Qed.

Lemma tail_body all_files pre f rest st w :
  NoDup all_files.*1 →
  all_files = pre ++ f :: rest → tail_inv max_size_bytes start pre st w →
  match loop_body env max_size_bytes f st w with
  | (Next st', w') => tail_inv max_size_bytes start (pre ++ [f]) st' w'
  | (Return b, w') => b = false
  end.
Proof.
  intros Hnodup Hall (Hlo & Hhi & Hcur & Hacc).
  assert (f.1 ∉ pre.*1) as Hfresh.
  { rewrite Hall, fmap_app, fmap_cons in Hnodup.
    apply NoDup_app in Hnodup as (_ & Hdisj & _). intros Hin.
    apply (Hdisj _ Hin). set_solver. }
  assert (f.1 ∈ processed_files st → f.1 ∈ start.2) as Hold.
  { intros Hin. apply Hhi in Hin. set_solver. }
  assert (f.1 ∉ processed_files st → f.1 ∉ start.2) as Hnew.
  { intros Hnin Hin. by apply Hnin, Hlo. }
  clear Hnodup Hall Hfresh.
  body_cases; unfold tail_inv; loop_fields; try reflexivity.
  1: { rewrite unprocessed_records_snoc_old by by apply Hold. rewrite fmap_app.
       split; [done|]. split; [|split; [|done]]; clear -Hhi Hcur; set_solver. }
  all: rewrite last_fits_snoc_new by by apply Hnew.
  all: rewrite fmap_app.
  all: try (apply orb_false_elim in Htrig as [_ Hbig]).
  all: clear Hold Hnew Hnin Hdisk; try clear Htrig.
  all: (split; [set_solver|]); (split; [set_solver|]); (split; [set_solver|]).
  all: by rewrite ?nonempty_snoc, ?Hne, ?Hbig.
Qed.

Lemma tail_last all_files st w :
  save_inv start st w → tail_inv max_size_bytes start all_files st w →
  match last_batch env st w with
  | (Next _, w') => tail_post max_size_bytes start all_files true (clear_progress w').2
  | (Return b, w') => b = false
  end.
Proof.
  intros [_ Hlog] (_ & _ & _ & Hacc).
  last_cases; unfold tail_post; rewrite ?clear_progress_events; loop_fields;
    try reflexivity; intros _; rewrite <- Hacc.
  - by eexists _, _, _.
  - exact Hlog.
Qed.

(** C4, as the code has it. In every run: each successful upload is
    followed at once by the removal of the archive and a save of the ledger
    with the sequence advanced by one and the batch added to the processed
    set, except the upload of the last batch at the end of the input: that
    one, a normal batch, is followed by the removal only, and ends the log
    of a run that returns [True]. A run that returns [False] (no space, or
    a failed upload) ends with a save of the ledger as it stood, and the
    progress file holds it; a run that returns [True] leaves no progress
    file. For an inventory of distinct paths, a run that returns [True]
    has that unsaved last batch exactly when the last unprocessed file fits
    under the ceiling: then its log ends with compression, upload and
    removal of a normal batch; otherwise (no unprocessed file, or the last
    one oversized) every upload is followed by its save. *)
Theorem saved_after_each_step (all_files : list (string * N))
    (pf : file_state) (tf : gset string) :
  let r := process_files env max_size_bytes start all_files (fresh_world pf tf) in
  (∀ log1 k name files log2,
     events r.2 = log1 ++ Compress k name files :: Upload name true :: log2 →
     (∃ l log3,
        log2 = Remove name :: SaveProgress ((last_saved start log1).1 + 1) l :: log3
        ∧ list_to_set l = (last_saved start log1).2 ∪ list_to_set files)
     ∨ (k = Normal ∧ log2 = [Remove name] ∧ r.1 = true))
  ∧ (r.1 = false →
     ∃ log ca l, events r.2 = log ++ [SaveProgress ca l]
       ∧ progress_file r.2 = Holds (JRecord (Some ca) (Some l))
       ∧ (ca, list_to_set l) = last_saved start log)
  ∧ (r.1 = true → progress_file r.2 = Absent)
  ∧ (NoDup all_files.*1 → r.1 = true →
     if last_fits max_size_bytes (unprocessed_records start.2 all_files) then
       ∃ log name files,
         events r.2 = log ++ [Compress Normal name files; Upload name true; Remove name]
     else
       ∀ log1 k name files log2,
         events r.2 = log1 ++ Compress k name files :: Upload name true :: log2 →
         ∃ l log3,
           log2 = Remove name :: SaveProgress ((last_saved start log1).1 + 1) l :: log3
           ∧ list_to_set l = (last_saved start log1).2 ∪ list_to_set files).
Proof.
  intros r.
  assert (save_inv start (mkLoop start.1 start.2 0 []) (fresh_world pf tf)) as Hinit.
  { split; [by destruct start|]. intros log1 k name files log2 Heq. cbn in Heq.
    by destruct log1. }
  assert (save_post start r.1 r.2) as (H1 & H2 & H3).
  { apply (process_files_inv env max_size_bytes (λ _, save_inv start) (save_post start)).
    - exact Hinit.
    - intros pre f rest st w _. apply save_body.
    - intros st w. apply save_last. }
  split; [exact H1|]. split; [exact H2|]. split; [exact H3|].
  intros Hnodup Htrue.
  assert (tail_post max_size_bytes start all_files r.1 r.2) as Htail.
  { apply (process_files_inv env max_size_bytes
             (λ pre st w, save_inv start st w ∧ tail_inv max_size_bytes start pre st w)
             (tail_post max_size_bytes start all_files)).
    - split; [exact Hinit|]. split; [done|]. split; [set_solver|]. split; [set_solver|]. reflexivity.
    - intros pre f rest st w Hall [Hs Ht].
      pose proof (save_body f st w Hs) as Hs'.
      pose proof (tail_body all_files pre f rest st w Hnodup Hall Ht) as Ht'.
      destruct (loop_body env max_size_bytes f st w) as [[st'|b] w']; [done|].
      subst b. intros [=].
    - intros st w [Hs Ht]. pose proof (tail_last all_files st w Hs Ht) as Ht'.
      destruct (last_batch env st w) as [[st'|b] w']; [done|].
      subst b. intros [=]. }
  specialize (Htail Htrue).
  destruct (last_fits max_size_bytes (unprocessed_records start.2 all_files)); [done|].
  intros log1 k name files log2 Heq. by destruct (Htail _ _ _ _ _ Heq) as [?|[]].
Qed.

End Saving.

Lemma saved_after_each_step_witness :
  (∃ log ca l, events failing_run.2 = log ++ [SaveProgress ca l]
     ∧ progress_file failing_run.2 = Holds (JRecord (Some ca) (Some l))
     ∧ (ca, list_to_set l) = last_saved (1%Z, ∅) log)
  ∧ ∃ log name files,
      events complete_run.2
      = log ++ [Compress Normal name files; Upload name true; Remove name].
Proof.
  split.
  - destruct (saved_after_each_step (upload_fails_from 1) 15 (1%Z, ∅) three_files Absent ∅)
      as (_ & H & _).
    apply H. vm_compute. reflexivity.
  - destruct (saved_after_each_step always_ok 15 (1%Z, ∅) three_files Absent ∅)
      as (_ & _ & _ & H).
    apply (H three_files_NoDup). vm_compute. reflexivity.
Defined.

(** C4 fails as stated: the only batch of this run is the last one at the
    end of the input; its upload succeeds, no save follows, and the progress
    file that was on disk is gone. *)
Lemma last_batch_not_saved :
  single_file_run.1 = true
  ∧ Upload "ego4d_part_001.tar.gz" true ∈ events single_file_run.2
  ∧ (∀ ca l, SaveProgress ca l ∉ events single_file_run.2)
  ∧ progress_file single_file_run.2 = Absent.
Proof.
  assert (events single_file_run.2 =
          [SpaceCheck true; Compress Normal "ego4d_part_001.tar.gz" ["a"];
           Upload "ego4d_part_001.tar.gz" true; Remove "ego4d_part_001.tar.gz"]) as ->
    by (vm_compute; reflexivity).
  split; [vm_compute; reflexivity|]. split; [set_solver|].
  split; [intros ca l; set_solver|]. vm_compute. reflexivity.
Qed.

(** ** C5, C6, C7: the ledger file *)

(** C5. For every sequence number and every set of paths, [load_progress]
    after [save_progress] of the pair (the set passed as a list, as the
    caller does) returns that sequence number and that set; for a list of
    paths it returns the set of the list's elements. *)
Theorem save_load_roundtrip (ca : Z) (S : gset string) (l : list string) (w : World) :
  (load_progress (save_progress ca (elements S) w).2).1 = (ca, S)
  ∧ (load_progress (save_progress ca l w).2).1 = (ca, list_to_set l).
Proof.
  assert (∀ k, (load_progress (save_progress ca k w).2).1 = (ca, list_to_set k)) as Hload
    by reflexivity.
  split; [|apply Hload]. rewrite Hload. by rewrite list_to_set_elements_L.
Qed.

(** C6. When the progress file is missing, unreadable, not JSON, not a JSON
    object or lacks one of the two keys, [load_progress] returns
    [(1, empty set)] and leaves the world as it is; no exception escapes,
    the function being total. *)
Theorem load_progress_defaults (w : World) :
  no_valid_record (progress_file w) → load_progress w = ((1%Z, ∅), w).
Proof.
  unfold load_progress. destruct (progress_file w) as [| | |[[ca|] [pf|]|]]; cbn; done.
Qed.

Lemma load_progress_defaults_witness :
  load_progress (fresh_world Garbled ∅) = ((1%Z, ∅), fresh_world Garbled ∅).
Proof. apply load_progress_defaults. exact I. Defined.

(** C7, as the code has it. [save_progress] opens the progress file for
    writing in place, which truncates it, and then writes the record: a
    save that completes leaves exactly the new record, whatever the file
    held; between the two steps the file is one that [load_progress] reads
    as [(1, empty set)]. *)
Theorem save_overwrites_in_place (ca : Z) (l : list string) (w : World) :
  save_progress ca l w = json_dump ca l (open_truncate w).2
  ∧ progress_file (save_progress ca l w).2 = Holds (JRecord (Some ca) (Some l))
  ∧ progress_file (open_truncate w).2 = Garbled
  ∧ (load_progress (open_truncate w).2).1 = (1%Z, ∅).
Proof. done. Qed.

(** C7 fails as stated: interrupted after the truncation, a save leaves the
    previous valid ledger (5, {a}) replaced by a file that loads as
    [(1, empty set)]. *)
Lemma save_not_atomic :
  (load_progress valid_ledger).1 = (5%Z, {["a"]})
  ∧ progress_file interrupted_save ≠ progress_file valid_ledger
  ∧ (load_progress interrupted_save).1 = (1%Z, ∅).
Proof. cbn. split; [f_equal; set_solver|]. done. Qed.

(** * Further properties of the code *)

(** ** The inventory walk *)

Section Walk.
Context (islink : string → bool) (getsize : string → N).

(** The pair of both accumulators advances in step. *)
Lemma scan_filenames dirpath filenames files total :
  total_size files = total →
  total_size
    (foldl (λ files f,
              let fp := path_join dirpath f in
              if negb (islink fp) then files ++ [(fp, getsize fp)] else files)
           files filenames)
  = foldl (λ total_size f,
             let fp := path_join dirpath f in
             if negb (islink fp) then total_size + getsize fp else total_size)
          total filenames.
Proof.
  revert files total. induction filenames as [|f fs IH]; intros files total Hacc; [done|].
  cbn [foldl]. apply IH. cbn zeta. destruct (negb _); [|done].
  rewrite total_size_snoc. cbn. by rewrite Hacc.
Qed.

(** X1. Over one walk of the tree and one state of the file system,
    [get_dir_size] returns the sum of the sizes [get_all_files] lists: both
    skip the same symbolic links. *)
Theorem dir_size_is_inventory_total (walk : list walk_entry) :
  get_dir_size islink getsize walk = total_size (get_all_files islink getsize walk).
Proof.
  unfold get_dir_size, get_all_files.
  assert (∀ files total, total_size files = total →
            total_size
              (foldl (λ files '(dirpath, _, filenames),
                        foldl (λ files f,
                                 let fp := path_join dirpath f in
                                 if negb (islink fp) then files ++ [(fp, getsize fp)]
                                 else files) files filenames) files walk)
            = foldl (λ total_size '(dirpath, _, filenames),
                       foldl (λ total_size f,
                                let fp := path_join dirpath f in
                                if negb (islink fp) then total_size + getsize fp
                                else total_size) total_size filenames) total walk) as H.
  { induction walk as [|[[d ds] fs] walk IH]; intros files total Hacc; [done|].
    cbn [foldl]. apply IH. by apply scan_filenames. }
  symmetry. by apply H.
Qed.

Lemma scan_filenames_elem dirpath filenames files p s :
  (p, s) ∈ foldl (λ files f,
                    let fp := path_join dirpath f in
                    if negb (islink fp) then files ++ [(fp, getsize fp)] else files)
                 files filenames
  ↔ (p, s) ∈ files
    ∨ ∃ f, f ∈ filenames ∧ p = path_join dirpath f ∧ islink p = false ∧ s = getsize p.
Proof.
  revert files. induction filenames as [|f fs IH]; intros files; cbn [foldl].
  - set_solver.
  - rewrite IH. cbn zeta. destruct (islink (path_join dirpath f)) eqn:Hl; cbn [negb].
    + split; [set_solver|]. intros [?|(f' & Hf' & -> & Hl' & ->)]; [by left|].
      apply elem_of_cons in Hf' as [->|?]; [congruence|]. right. by exists f'.
    + rewrite elem_of_app, list_elem_of_singleton. split.
      * intros [[?|[= -> ->]]|(f' & ? & ?)]; [by left| |right; exists f'; set_solver].
        right. exists f. set_solver.
      * intros [?|(f' & Hf' & -> & Hl' & ->)]; [by left; left|].
        apply elem_of_cons in Hf' as [->|?]; [by left; right|]. right. by exists f'.
Qed.

(** X2. [get_all_files] lists exactly the files the walk names that are not
    symbolic links, each under the path joined from its directory and with
    the size the file system reports for that path. *)
Theorem inventory_lists_regular_files (walk : list walk_entry) (p : string) (s : N) :
  (p, s) ∈ get_all_files islink getsize walk
  ↔ ∃ dirpath dirnames filenames f,
      (dirpath, dirnames, filenames) ∈ walk ∧ f ∈ filenames
      ∧ p = path_join dirpath f ∧ islink p = false ∧ s = getsize p.
Proof.
  unfold get_all_files.
  assert (∀ files,
            (p, s) ∈ foldl (λ files '(dirpath, _, filenames),
                              foldl (λ files f,
                                       let fp := path_join dirpath f in
                                       if negb (islink fp)
                                       then files ++ [(fp, getsize fp)]
                                       else files) files filenames) files walk
            ↔ (p, s) ∈ files
              ∨ ∃ dirpath dirnames filenames f,
                  (dirpath, dirnames, filenames) ∈ walk ∧ f ∈ filenames
                  ∧ p = path_join dirpath f ∧ islink p = false ∧ s = getsize p) as H.
  { induction walk as [|[[d ds] fs] walk IH]; intros files; cbn [foldl].
    - set_solver.
    - rewrite IH, scan_filenames_elem. split.
      + intros [[?|(f & ? & ?)]|(d' & ds' & fs' & f & ? & ?)]; [by left|right..].
        * exists d, ds, fs, f. set_solver.
        * exists d', ds', fs', f. set_solver.
      + intros [?|(d' & ds' & fs' & f & Hin & ?)]; [by left; left|].
        apply elem_of_cons in Hin as [[= -> -> ->]|?].
        * left. right. by exists f.
        * right. by exists d', ds', fs', f. }
  rewrite H. set_solver.
Qed.

Lemma scan_filenames_paths dirpath filenames files :
  (foldl (λ files f,
            let fp := path_join dirpath f in
            if negb (islink fp) then files ++ [(fp, getsize fp)] else files)
         files filenames).*1
  = files.*1 ++ filter (λ p, islink p = false) (path_join dirpath <$> filenames).
Proof.
  revert files. induction filenames as [|f fs IH]; intros files; cbn [foldl fmap list_fmap].
  - by rewrite filter_nil, app_nil_r.
  - rewrite IH. cbn zeta. rewrite filter_cons.
    destruct (islink (path_join dirpath f)) eqn:Hl; cbn [negb].
    + by rewrite decide_False by done.
    + rewrite decide_True by done. rewrite fmap_app, <- app_assoc. done.
Qed.

(** X3. The paths of the inventory are the paths the walk names, in the
    walk's order, without the symbolic links; so they are distinct whenever
    the walk names no path twice. *)
Theorem inventory_keeps_walk_order (walk : list walk_entry) :
  (get_all_files islink getsize walk).*1
  = filter (λ p, islink p = false) (walk_paths walk)
  ∧ (NoDup (walk_paths walk) → NoDup (get_all_files islink getsize walk).*1).
Proof.
  assert ((get_all_files islink getsize walk).*1
          = filter (λ p, islink p = false) (walk_paths walk)) as Heq.
  { unfold get_all_files, walk_paths.
    assert (∀ files,
              (foldl (λ files '(dirpath, _, filenames),
                        foldl (λ files f,
                                 let fp := path_join dirpath f in
                                 if negb (islink fp)
                                 then files ++ [(fp, getsize fp)]
                                 else files) files filenames) files walk).*1
              = files.*1
                ++ filter (λ p, islink p = false)
                     (walk ≫= λ '(dirpath, _, filenames),
                        path_join dirpath <$> filenames)) as H.
    { induction walk as [|[[d ds] fs] walk IH]; intros files; cbn [foldl].
      - by rewrite app_nil_r.
      - rewrite IH, scan_filenames_paths, bind_cons, filter_app, app_assoc. done. }
    by rewrite H. }
  split; [done|]. intros Hnd. rewrite Heq. by apply NoDup_filter.
Qed.

End Walk.

(** ** Archive names *)

Lemma string_app_cons c s t : String c s +:+ t = String c (s +:+ t).
Proof. done. Qed.

Lemma string_app_nil t : "" +:+ t = t.
Proof. done. Qed.

Ltac push_app := rewrite ?string_app_cons, ?string_app_nil in *.

Lemma zeros_S k : zeros (S k) = String "0"%char (zeros k).
Proof. by destruct k. Qed.

Lemma zeros_app_empty k s : zeros k +:+ s = "" → s = "".
Proof. destruct k; [done|]. rewrite zeros_S. by push_app. Qed.

Lemma string_length_app s t :
  String.length (s +:+ t) = (String.length s + String.length t)%nat.
Proof. induction s as [|c s IH]; [done|]. push_app. cbn. by rewrite IH. Qed.

Lemma string_app_inj_r s1 s2 t : s1 +:+ t = s2 +:+ t → s1 = s2.
Proof.
  revert s2. induction s1 as [|c s1 IH]; intros [|d s2] H; push_app.
  - done.
  - apply (f_equal String.length) in H. cbn in H. rewrite string_length_app in H. lia.
  - apply (f_equal String.length) in H. cbn in H. rewrite string_length_app in H. lia.
  - injection H as -> H. f_equal. by apply IH.
Qed.

Lemma padded_inj k1 k2 s1 s2 :
  canonical_digits s1 → canonical_digits s2 →
  zeros k1 +:+ s1 = zeros k2 +:+ s2 → s1 = s2.
Proof.
  intros [Hne1 Hz1] [Hne2 Hz2]. revert k2.
  induction k1 as [|k1 IH]; intros [|k2] H; rewrite ?zeros_S in H; push_app.
  - done.
  - apply Hz1 in H. by apply zeros_app_empty in H.
  - symmetry in H. apply Hz2 in H. by apply zeros_app_empty in H.
  - injection H as H. by apply (IH k2).
Qed.

Lemma pretty_N_go_head x s :
  (0 < x)%N → ∃ c rest, pretty_N_go x s = String c rest ∧ c ≠ "0"%char.
Proof.
  revert s. induction (N.lt_wf_0 x) as [x _ IH]; intros s Hx.
  rewrite pretty_N_go_step by done.
  destruct (decide (x `div` 10 = 0)%N) as [Hq|Hq].
  - rewrite Hq, pretty_N_go_0. eexists _, _. split; [done|].
    assert (x < 10)%N by (by apply N.div_small_iff).
    rewrite N.mod_small by done.
    unfold pretty_N_char. by repeat case_match.
  - apply IH; [by apply N.div_lt|by apply N.neq_0_lt_0].
Qed.

Lemma pretty_N_canonical (n : N) : canonical_digits (pretty n).
Proof.
  unfold pretty, pretty_N. destruct (decide (n = 0)) as [->|Hn].
  - split; [done|]. by intros rest [= <-].
  - destruct (pretty_N_go_head n "") as (c & rest & -> & Hc); [lia|].
    split; [done|]. intros rest' [= -> _]. done.
Qed.

Lemma zfill_inj w (a b : N) : zfill w (pretty a) = zfill w (pretty b) → a = b.
Proof.
  unfold zfill. intros H. apply (inj pretty).
  eapply padded_inj; [apply pretty_N_canonical..|exact H].
Qed.

Lemma zfill_no_dash w (n : N) s : zfill w (pretty n) ≠ "-" +:+ s.
Proof.
  unfold zfill. fold (zeros (w - String.length (pretty n))).
  destruct (w - String.length (pretty n))%nat as [|k];
    [|rewrite zeros_S; by push_app].
  push_app. unfold pretty, pretty_N. destruct (decide (n = 0)); [done|].
  by apply pretty_N_go_ne_dash.
Qed.

Lemma fmt_03d_inj a b : fmt_03d a = fmt_03d b → a = b.
Proof.
  unfold fmt_03d. destruct (Z.ltb_spec a 0) as [Ha|Ha], (Z.ltb_spec b 0) as [Hb|Hb];
    intros H.
  - push_app. injection H as H. apply zfill_inj in H. lia.
  - symmetry in H. by apply zfill_no_dash in H.
  - by apply zfill_no_dash in H.
  - apply zfill_inj in H. lia.
Qed.

Lemma name_of_inj k1 k2 a b : name_of k1 a = name_of k2 b → k1 = k2 ∧ a = b.
Proof.
  destruct k1, k2; unfold name_of, archive_name, big_file_archive; intros H;
    push_app; try discriminate H.
  all: injection H as H; apply string_app_inj_r in H; by apply fmt_03d_inj in H.
Qed.

(** X4. An archive name determines the kind of the batch and the sequence
    number: two names are equal only for the same kind and the same number,
    whatever the integers, padded or longer than three digits or negative. *)
Theorem archive_names_injective (k1 k2 : batch_kind) (a b : Z) :
  name_of k1 a = name_of k2 b → k1 = k2 ∧ a = b.
Proof. apply name_of_inj. Qed.

(** ** The order of the external calls *)

Lemma split_app_one {A} (log chunk l1 : list A) (x : A) (l2 : list A) :
  log ++ chunk = l1 ++ x :: l2 →
  (∃ t, log = l1 ++ x :: t ∧ l2 = t ++ chunk)
  ∨ (∃ n1, l1 = log ++ n1 ∧ chunk = n1 ++ x :: l2).
Proof.
  revert l1. induction log as [|y log IH]; intros l1 H.
  - right. by exists l1.
  - destruct l1 as [|z l1]; cbn in H; injection H as -> H.
    + left. by exists log.
    + destruct (IH _ H) as [(t & -> & ->)|(n1 & -> & ->)].
      * left. by exists t.
      * right. by exists n1.
Qed.

Lemma each_event_app P log chunk :
  each_event P log →
  (∀ l1 e l2 t, P l1 e l2 → P l1 e (l2 ++ t)) →
  (∀ n1 e l2, chunk = n1 ++ e :: l2 → P (log ++ n1) e l2) →
  each_event P (log ++ chunk).
Proof.
  intros Hlog Hext Hchunk l1 e l2 Heq.
  apply split_app_one in Heq as [(t & -> & ->)|(n1 & -> & ->)].
  - apply Hext. by apply Hlog.
  - by apply Hchunk.
Qed.

Lemma in_order_ext l1 e l2 t : in_order l1 e l2 → in_order l1 e (l2 ++ t).
Proof.
  intros [Ha Hb]. split; [done|]. destruct e; try done.
  destruct Hb as (ok & l3 & ->). by exists ok, (l3 ++ t).
Qed.

Ltac chunk_events :=
  let n1 := fresh "n1" in
  intros n1 ? ? ?;
  do 10 (try (destruct n1 as [|? n1]; simplify_eq/=)).

Ltac solve_suffix :=
  apply suffix_app_r; repeat first [reflexivity | apply suffix_cons_r].

Ltac solve_order :=
  split; cbn; try done;
  first [ eexists _, _; solve_suffix | eexists _, _; reflexivity ].

Section Order.
Context (env : Env) (max_size_bytes : N).

Lemma order_body f st w :
  each_event in_order (events w) →
  each_event in_order (loop_body env max_size_bytes f st w).2.(events).
Proof.
  intros Hlog.
  body_cases; loop_fields; rewrite <- ?app_assoc; cbn [app]; try done.
  all: apply each_event_app; [done|apply in_order_ext|].
  all: chunk_events.
  all: solve_order.
Qed.

Lemma order_last st w :
  each_event in_order (events w) →
  each_event in_order (last_batch env st w).2.(events).
Proof.
  intros Hlog.
  last_cases; loop_fields; try done.
  all: apply each_event_app; [done|apply in_order_ext|].
  all: chunk_events.
  all: solve_order.
Qed.

End Order.

(** ** Sequence numbers and names of the archives *)

Lemma compressed_app log l : compressed (log ++ l) = compressed log ++ compressed l.
Proof. apply omap_app. Qed.

Lemma names_from_app ca ks ks' :
  names_from ca (ks ++ ks')
  = names_from ca ks ++ names_from (ca + Z.of_nat (length ks)) ks'.
Proof.
  revert ca. induction ks as [|k ks IH]; intros ca; cbn [names_from app length].
  - by rewrite Z.add_0_r.
  - rewrite IH. do 3 f_equal. lia.
Qed.

Lemma numbering_step (start : Z * gset string) log ca chunk :
  compressed log = names_from start.1 (compressed log).*1 →
  ca = (start.1 + Z.of_nat (length (compressed log)))%Z →
  compressed chunk = names_from ca (compressed chunk).*1 →
  compressed (log ++ chunk) = names_from start.1 (compressed (log ++ chunk)).*1.
Proof.
  intros Hlog -> Hchunk.
  rewrite compressed_app, fmap_app, names_from_app, <- Hlog, length_fmap.
  by rewrite <- Hchunk.
Qed.

Section Numbering.
Context (env : Env) (max_size_bytes : N) (start : Z * gset string).

Lemma numbering_body f st w :
  numbering_inv start st w →
  match loop_body env max_size_bytes f st w with
  | (Next st', w') => numbering_inv start st' w'
  | (Return b, w') => compressed (events w') = names_from start.1 (compressed (events w')).*1
  end.
Proof.
  intros [Hlog Hca].
  body_cases; unfold numbering_inv; loop_fields; rewrite <- ?app_assoc; cbn [app];
    try done.
  all: repeat match goal with
       | |- _ ∧ _ => split
       | |- compressed (_ ++ _) = _ =>
           by apply (numbering_step start _ (current_archive st))
       | |- _ = (_ + _)%Z =>
           rewrite compressed_app, length_app, Hca; cbn; lia
       end.
Qed.

Lemma numbering_last st w :
  numbering_inv start st w →
  compressed (events (last_batch env st w).2)
  = names_from start.1 (compressed (events (last_batch env st w).2)).*1.
Proof.
  intros [Hlog Hca].
  last_cases; loop_fields; try done.
  all: by apply (numbering_step start _ (current_archive st)).
Qed.

Lemma process_files_numbering (all_files : list (string * N))
    (pf : file_state) (tf : gset string) :
  let log := events (process_files env max_size_bytes start all_files
                       (fresh_world pf tf)).2 in
  compressed log = names_from start.1 (compressed log).*1.
Proof.
  apply (process_files_inv env max_size_bytes (λ _, numbering_inv start)
           (λ _ w, compressed (events w) = names_from start.1 (compressed (events w)).*1)).
  - split; [done|]. cbn. lia.
  - intros pre f rest st w _. apply numbering_body.
  - intros st w H. pose proof (numbering_last st w H) as H'.
    destruct (last_batch env st w) as [[?|?] ?]; [|done].
    by rewrite clear_progress_events.
Qed.

(** X6. The archives a run compresses carry consecutive sequence numbers
    from the sequence the run starts with, in the order they are made,
    normal and oversized batches sharing the one counter. *)
Theorem archives_numbered_consecutively (all_files : list (string * N))
    (pf : file_state) (tf : gset string) :
  let log := events (process_files env max_size_bytes start all_files
                       (fresh_world pf tf)).2 in
  compressed log = names_from start.1 (compressed log).*1.
Proof. apply process_files_numbering. Qed.

End Numbering.

Lemma names_from_seq ca ks k n :
  (k, n) ∈ names_from ca ks → ∃ c, (ca ≤ c)%Z ∧ n = name_of k c.
Proof.
  revert ca. induction ks as [|k' ks IH]; intros ca Hin; cbn in Hin; [set_solver|].
  apply elem_of_cons in Hin as [[= -> ->]|Hin].
  - exists ca. split; [lia|done].
  - destruct (IH _ Hin) as (c & Hc & ->). exists c. split; [lia|done].
Qed.

Lemma names_from_NoDup ca ks : NoDup (names_from ca ks).*2.
Proof.
  revert ca. induction ks as [|k ks IH]; intros ca; cbn; [apply NoDup_nil_2|].
  apply NoDup_cons. split; [|apply IH].
  intros Hin. apply list_elem_of_fmap in Hin as ([k' n] & Hn & Hin). cbn in Hn. subst n.
  apply names_from_seq in Hin as (c & Hc & Heq).
  apply name_of_inj in Heq as [_ ->]. lia.
Qed.

(** X7. No run compresses two archives under the same name. *)
Theorem archive_names_distinct (env : Env) (max_size_bytes : N)
    (start : Z * gset string) (all_files : list (string * N))
    (pf : file_state) (tf : gset string) :
  NoDup (compressed (events (process_files env max_size_bytes start all_files
                               (fresh_world pf tf)).2)).*2.
Proof.
  pose proof (process_files_numbering env max_size_bytes start all_files pf tf) as H.
  cbn zeta in H. rewrite H. apply names_from_NoDup.
Qed.

(** ** The staging directory *)

Section Staging.
Context (env : Env) (max_size_bytes : N) (tf : gset string).



End Staging.

(** ** Saves, and the pause for disk space *)

Lemma save_grows_ext start l1 e l2 t :
  save_grows start l1 e l2 → save_grows start l1 e (l2 ++ t).
Proof. by destruct e. Qed.

Ltac ledger_step Hled :=
  rewrite ?last_saved_app, <- ?Hled; cbn [last_saved foldl fst snd];
  rewrite ?list_to_set_elements_L; cbn [list_to_set foldr].

Section Growth.
Context (env : Env) (max_size_bytes : N) (start : Z * gset string).

Lemma growth_body f st w :
  growth_inv start st w →
  match loop_body env max_size_bytes f st w with
  | (Next st', w') => growth_inv start st' w'
  | (Return b, w') => each_event (save_grows start) (events w')
  end.
Proof.
  intros [Hled Hlog].
  body_cases; unfold growth_inv; loop_fields; rewrite <- ?app_assoc; cbn [app];
    try done.
  all: repeat match goal with
       | |- _ ∧ each_event _ _ => split
       | |- _ = last_saved _ _ => by ledger_step Hled
       | |- each_event _ (_ ++ _) =>
           apply each_event_app; [done|apply save_grows_ext|chunk_events]
       end.
  all: try done.
  all: unfold save_grows; ledger_step Hled; split; [lia|set_solver].
Qed.

Lemma growth_last st w :
  growth_inv start st w →
  each_event (save_grows start) (events (last_batch env st w).2).
Proof.
  intros [Hled Hlog].
  last_cases; loop_fields; try done.
  all: apply each_event_app; [done|apply save_grows_ext|chunk_events].
  all: try done.
  all: unfold save_grows; ledger_step Hled; split; [lia|set_solver].
Qed.

(** X9. Across the saves of a run the ledger only grows: each save keeps
    the sequence or advances it by one and keeps every path of the ledger
    written before it (or of the ledger the run started from). *)
Theorem ledger_only_grows (all_files : list (string * N))
    (pf : file_state) (tf : gset string) (l1 : list Event) (ca : Z)
    (l : list string) (l2 : list Event) :
  events (process_files env max_size_bytes start all_files (fresh_world pf tf)).2
    = l1 ++ SaveProgress ca l :: l2 →
  ((last_saved start l1).1 ≤ ca ≤ (last_saved start l1).1 + 1)%Z
  ∧ (last_saved start l1).2 ⊆ list_to_set l.
Proof.
  intros Heq.
  assert (each_event (save_grows start)
            (events (process_files env max_size_bytes start all_files
                       (fresh_world pf tf)).2)) as Hall.
  { apply (process_files_inv env max_size_bytes (λ _, growth_inv start)
             (λ _ w, each_event (save_grows start) (events w))).
    - split; [by destruct start|]. intros k1 x k2 Hk. by destruct k1.
    - intros pre f rest st w _. apply growth_body.
    - intros st w H. pose proof (growth_last st w H) as H'.
      destruct (last_batch env st w) as [[?|?] ?]; [|done].
      by rewrite clear_progress_events. }
  apply (Hall _ _ _ Heq).
Qed.
End Growth.

Lemma failure_in_chunk log chunk l1 e l2 :
  Forall (λ e, failed e = false) log → failed e = true →
  log ++ chunk = l1 ++ e :: l2 →
  ∃ n1, l1 = log ++ n1 ∧ chunk = n1 ++ e :: l2.
Proof.
  intros Hok He Heq.
  apply split_app_one in Heq as [(t & -> & ->)|?]; [|done].
  apply Forall_app in Hok as [_ Hok]. apply Forall_cons in Hok as [Hok _]. congruence.
Qed.

Section Pause.
Context (env : Env) (max_size_bytes : N) (start : Z * gset string).

Ltac log_ok :=
  repeat match goal with
  | |- Forall _ (_ ++ _) => apply Forall_app; split; [done|]
  | |- Forall _ (_ :: _) => apply Forall_cons; split; [done|]
  | |- Forall _ [] => apply Forall_nil_2
  end.

Ltac no_pause Hok :=
  let l1 := fresh "l1" in let l2 := fresh "l2" in let Heq := fresh "Heq" in
  let n1 := fresh "n1" in
  intros l1 l2 Heq;
  apply (failure_in_chunk _ _ _ (SpaceCheck false) _ Hok eq_refl) in Heq as (n1 & -> & Heq);
  do 10 (try (destruct n1 as [|? n1]; simplify_eq/=)).

Lemma pause_body f st w :
  pause_inv start st w →
  match loop_body env max_size_bytes f st w with
  | (Next st', w') => pause_inv start st' w'
  | (Return b, w') => pause_post start b w'
  end.
Proof.
  intros [Hled Hok].
  body_cases; unfold pause_inv, pause_post; loop_fields; rewrite <- ?app_assoc;
    cbn [app]; try done.
  all: try (split; [by ledger_step Hled|by log_ok]).
  all: no_pause Hok.
  split; [done|]. eexists _, _. split; [done|]. split; [|done].
  rewrite app_nil_r. by ledger_step Hled.
Qed.

Lemma pause_last st w :
  pause_inv start st w →
  match last_batch env st w with
  | (Next _, w') => pause_post start true (clear_progress w').2
  | (Return b, w') => pause_post start b w'
  end.
Proof.
  intros [Hled Hok].
  last_cases; unfold pause_post; rewrite ?clear_progress_events; loop_fields.
  all: try no_pause Hok.
  intros l1 l2 Heq. rewrite <- (app_nil_r (events w)) in Heq.
  apply (failure_in_chunk _ _ _ (SpaceCheck false) _ Hok eq_refl) in Heq as (n1 & -> & Heq).
  by destruct n1.
Qed.

(** X10. When a space check fails the run returns [False] after exactly one
    more call, a save of the ledger as it stood, which the progress file
    then holds: nothing is compressed or uploaded after the failed check. *)
Theorem no_space_saves_and_stops (all_files : list (string * N))
    (pf : file_state) (tf : gset string) (l1 l2 : list Event) :
  let r := process_files env max_size_bytes start all_files (fresh_world pf tf) in
  events r.2 = l1 ++ SpaceCheck false :: l2 →
  r.1 = false
  ∧ ∃ ca l, l2 = [SaveProgress ca l]
      ∧ (ca, list_to_set l) = last_saved start l1
      ∧ progress_file r.2 = Holds (JRecord (Some ca) (Some l)).
Proof.
  intros r. revert l1 l2. change (pause_post start r.1 r.2).
  apply (process_files_inv env max_size_bytes (λ _, pause_inv start) (pause_post start)).
  - split; [by destruct start|apply Forall_nil_2].
  - intros pre f rest st w _. apply pause_body.
  - intros st w. apply pause_last.
Qed.
End Pause.

(** ** What was uploaded *)

Lemma uploaded_cons e log :
  uploaded (e :: log) =
  match e, log with
  | Compress _ _ fs, Upload _ true :: _ => fs ++ uploaded log
  | _, _ => uploaded log
  end.
Proof. destruct e, log as [|[] ?]; try done. Qed.

Lemma uploaded_app log chunk :
  ¬ starts_with_upload chunk →
  uploaded (log ++ chunk) = uploaded log ++ uploaded chunk.
Proof.
  intros Hhead. induction log as [|e log IH]; [done|].
  rewrite <- app_comm_cons, !uploaded_cons, IH.
  destruct e as [ok|k n fs|n ok|n|ca l]; try by destruct log.
  destruct log as [|e' log]; cbn [app].
  - destruct chunk as [|[?|? ? ?|? ?|?|? ?] ?]; done.
  - destruct e' as [?|? ? ?|? []|?|? ?]; try done. by rewrite app_assoc.
Qed.

Lemma ok_uploads_app log chunk : ok_uploads (log ++ chunk) = (ok_uploads log + ok_uploads chunk)%nat.
Proof. unfold ok_uploads. by rewrite List.filter_app, length_app. Qed.

Lemma ok_uploads_cons e log :
  ok_uploads (e :: log) = ((if is_ok_upload e then 1 else 0) + ok_uploads log)%nat.
Proof. unfold ok_uploads. cbn. by destruct (is_ok_upload e). Qed.

Lemma ok_uploads_nil : ok_uploads [] = 0%nat.
Proof. done. Qed.

Section Uploaded.
Context (env : Env) (max_size_bytes : N) (start : Z * gset string).

Ltac upl_step Hled Hset Hca Hall :=
  rewrite ?uploaded_app, ?ok_uploads_app, ?batch_files_app by (intros []);
  cbn [uploaded]; rewrite ?ok_uploads_cons, ?ok_uploads_nil; cbn [is_ok_upload];
  rewrite ?batch_files_cons, ?batch_files_nil; cbn [app];
  rewrite ?app_nil_r, ?Hall.

Lemma uploaded_body f st w :
  uploaded_inv start st w →
  match loop_body env max_size_bytes f st w with
  | (Next st', w') => uploaded_inv start st' w'
  | (Return b, w') => uploaded_post start b w'
  end.
Proof.
  intros (Hled & Hset & Hca & Hall).
  body_cases; unfold uploaded_inv, uploaded_post; loop_fields; rewrite <- ?app_assoc;
    cbn [app]; try done.
  all: unfold load_progress; loop_fields; cbn [path_exists read_ledger fst].
  all: rewrite ?list_to_set_elements_L.
  all: rewrite Hall in Hset.
  all: upl_step Hled Hset Hca Hall.
  all: repeat match goal with
       | |- _ ∧ _ => split
       | |- _ = last_saved _ _ => by ledger_step Hled
       | |- (_, _) = (_, _) => f_equal
       | |- ?l `prefix_of` ?l => reflexivity
       | |- _ `prefix_of` _ => rewrite ?app_assoc; by apply prefix_app_r
       | |- @eq Z _ _ => rewrite Hca; lia
       | |- @eq (gset string) _ _ => rewrite Hset, ?list_to_set_app_L; set_solver
       | |- @eq (list string) _ _ => reflexivity
       end.
Qed.

Lemma uploaded_last st w :
  uploaded_inv start st w →
  match last_batch env st w with
  | (Next _, w') => uploaded_post start true (clear_progress w').2
  | (Return b, w') => uploaded_post start b w'
  end.
Proof.
  intros (Hled & Hset & Hca & Hall).
  last_cases; unfold uploaded_post; rewrite ?clear_progress_events; loop_fields;
    try done.
  all: unfold load_progress; loop_fields; cbn [path_exists read_ledger fst].
  all: rewrite ?list_to_set_elements_L.
  all: rewrite Hall in Hset.
  all: upl_step Hled Hset Hca Hall.
  all: repeat match goal with
       | |- _ ∧ _ => split
       | |- (_, _) = (_, _) => f_equal
       | |- ?l `prefix_of` ?l => reflexivity
       | |- _ `prefix_of` _ => rewrite ?app_assoc; by apply prefix_app_r
       | |- @eq Z _ _ => rewrite Hca; lia
       | |- @eq (gset string) _ _ => rewrite Hset, ?list_to_set_app_L; set_solver
       | |- @eq (list string) _ _ => reflexivity
       end.
Qed.

Lemma process_files_uploaded all_files pf tf :
  uploaded_post start
    (process_files env max_size_bytes start all_files (fresh_world pf tf)).1
    (process_files env max_size_bytes start all_files (fresh_world pf tf)).2.
Proof.
  apply (process_files_inv env max_size_bytes (λ _, uploaded_inv start)
           (uploaded_post start)).
  - split; [by destruct start|]. cbn. split; [set_solver|]. split; [lia|done].
  - intros pre f rest st w _. apply uploaded_body.
  - intros st w. apply uploaded_last.
Qed.

(** X11. After a run that returns [False], [load_progress] reads from the
    progress file the start sequence advanced by the number of successful
    uploads and the start set extended by the files of exactly the archives
    whose upload succeeded. *)
Theorem halted_ledger_counts_uploads (all_files : list (string * N))
    (pf : file_state) (tf : gset string) :
  let r := process_files env max_size_bytes start all_files (fresh_world pf tf) in
  r.1 = false →
  (load_progress r.2).1
  = ((start.1 + Z.of_nat (ok_uploads (events r.2)))%Z,
     start.2 ∪ list_to_set (uploaded (events r.2))).
Proof.
  intros r Hr. pose proof (process_files_uploaded all_files pf tf) as H.
  fold r in H. rewrite Hr in H. apply H.
Qed.

(** X12. A run returns [True] only when every archive it compressed was
    uploaded successfully and every inventory file is either in the ledger
    it started from or in one of those archives. *)
Theorem success_means_all_uploaded (all_files : list (string * N))
    (pf : file_state) (tf : gset string) :
  let r := process_files env max_size_bytes start all_files (fresh_world pf tf) in
  r.1 = true →
  uploaded (events r.2) = batch_files (events r.2)
  ∧ ∀ f, f ∈ all_files → f.1 ∈ start.2 ∨ f.1 ∈ uploaded (events r.2).
Proof.
  intros r Hr. pose proof (process_files_uploaded all_files pf tf) as H.
  pose proof (process_files_cover env max_size_bytes start all_files pf tf) as Hc.
  fold r in H, Hc. rewrite Hr in H, Hc. cbn in H. split; [done|].
  intros f Hf. rewrite H. apply Hc. apply list_elem_of_fmap. by exists f.
Qed.
End Uploaded.

(** * The whole function and the script *)

(** ** The run with exceptions against the run without *)

Ltac run_exn :=
  cbv [mbind mret MX_bind MX_ret M_bind M_ret lift raise tar_create_exn upload_exn
       save_progress tar_create upload_to_modelscope os_remove check_disk_space
       open_truncate json_dump append_file];
  cbn [progress_file temp_files space_calls upload_calls events].

Section RaisingFacts.
Context (env : Env) (faults : Faults) (max_size_bytes : N).

Lemma flush_batch_exn_eq st w :
  flush_batch_exn env faults st w =
  let name := archive_name (current_archive st) in
  match fault_on faults name with
  | Some e => (Raised e, (tar_create Normal name (current_files st) w).2)
  | None => lift (flush_batch env st) w
  end.
Proof.
  unfold flush_batch_exn, flush_batch, fault_on. run_exn.
  cbn zeta. destruct (tar_fails faults _); [reflexivity|].
  destruct (interrupted faults _); [reflexivity|].
  loop_fields. destruct (upload_ok env (upload_calls w)); reflexivity.
Qed.

Lemma big_file_exn_eq p st w :
  big_file_exn env faults p st w =
  let name := big_file_archive (current_archive st) in
  match fault_on faults name with
  | Some e => (Raised e, (tar_create BigFile name [p] w).2)
  | None => lift (big_file env p st) w
  end.
Proof.
  unfold big_file_exn, big_file, fault_on. run_exn.
  cbn zeta. destruct (tar_fails faults _); [reflexivity|].
  destruct (interrupted faults _); [reflexivity|].
  loop_fields. destruct (upload_ok env (upload_calls w)); reflexivity.
Qed.

Lemma last_batch_exn_eq st w :
  last_batch_exn env faults st w =
  let name := archive_name (current_archive st) in
  if nonempty (current_files st) then
    match fault_on faults name with
    | Some e => (Raised e, (tar_create Normal name (current_files st) w).2)
    | None => lift (last_batch env st) w
    end
  else (Done (Next st), w).
Proof.
  unfold last_batch_exn, last_batch, fault_on.
  destruct (nonempty (current_files st)); [|done]. run_exn.
  cbn zeta. destruct (tar_fails faults _); [reflexivity|].
  destruct (interrupted faults _); [reflexivity|].
  loop_fields. destruct (upload_ok env (upload_calls w)); reflexivity.
Qed.


Ltac same := hnf; exact eq_refl.

Ltac faulty E :=
  unfold refines; cbn [fst snd tar_create events];
  eexists _, _, _, _; split; [reflexivity | exact E].

Lemma loop_body_refines f st w :
  refines faults (loop_body_exn env faults max_size_bytes f st w)
    (loop_body env max_size_bytes f st w).
Proof.
  unfold loop_body_exn, loop_body.
  destruct (decide (f.1 ∈ processed_files st)); [same|].
  run_exn.
  destruct (disk_ok env (space_calls w)); cbn [negb]; [|same].
  destruct (_ || _); [|same].
  destruct (nonempty (current_files st)).
  - rewrite flush_batch_exn_eq. cbn zeta.
    destruct (fault_on faults (archive_name _)) eqn:E; [faulty E|].
    unfold lift. destruct (flush_batch env st _) as [[st1|b] w1]; [|same].
    destruct (max_size_bytes <? f.2); [|same].
    rewrite big_file_exn_eq. cbn zeta.
    destruct (fault_on faults (big_file_archive _)) eqn:E'; [faulty E'|].
    unfold lift. destruct (big_file env f.1 st1 w1); same.
  - destruct (max_size_bytes <? f.2); [|same].
    rewrite big_file_exn_eq. cbn zeta.
    destruct (fault_on faults (big_file_archive _)) eqn:E'; [faulty E'|].
    unfold lift. destruct (big_file env f.1 st _); same.
Qed.

Lemma for_files_refines all_files : ∀ st w,
  refines faults (for_files_exn env faults max_size_bytes all_files st w)
    (for_files env max_size_bytes all_files st w).
Proof.
  induction all_files as [|f rest IH]; intros st w; [same|].
  cbn [for_files_exn for_files]. cbv [mbind MX_bind M_bind].
  pose proof (loop_body_refines f st w) as H. unfold refines in H.
  destruct (loop_body_exn env faults max_size_bytes f st w) as [[[st'|b]|e] w'];
    cbn [fst snd] in H; [rewrite H; apply IH|by rewrite H|exact H].
Qed.

Lemma process_files_refines start all_files w :
  refines faults (process_files_exn env faults max_size_bytes start all_files w)
    (process_files env max_size_bytes start all_files w).
Proof.
  unfold process_files_exn, process_files. cbv [mbind MX_bind M_bind].
  pose proof (for_files_refines all_files (mkLoop start.1 start.2 0 []) w) as H.
  unfold refines in H.
  destruct (for_files_exn env faults max_size_bytes all_files _ w) as [[[st'|b]|e] w'];
    cbn [fst snd] in H; [rewrite H|by rewrite H|exact H].
  rewrite last_batch_exn_eq. cbn zeta. rewrite last_batch_eq.
  destruct (nonempty (current_files st')) eqn:Hne.
  - destruct (fault_on faults (archive_name _)) eqn:E; [faulty E|].
    unfold lift. rewrite last_batch_eq, Hne. cbn zeta.
    destruct (upload_ok env (upload_calls w')); [|same].
    cbv [lift mret MX_ret M_ret]. destruct (clear_progress _) as [[] ?]; same.
  - cbv [lift mret MX_ret M_ret]. destruct (clear_progress _) as [[] ?]; same.
Qed.

(** Without faults the run returns. *)
Lemma process_files_exn_done start all_files w :
  (∀ name, fault_on faults name = None) →
  process_files_exn env faults max_size_bytes start all_files w
  = lift (process_files env max_size_bytes start all_files) w.
Proof.
  intros Hnone. pose proof (process_files_refines start all_files w) as H.
  unfold refines, lift in *.
  destruct (process_files_exn env faults max_size_bytes start all_files w) as [[b|e] w'];
    cbn [fst snd] in H.
  - by rewrite H.
  - destruct H as (? & ? & name & ? & _ & E). by rewrite Hnone in E.
Qed.

End RaisingFacts.

(** ** The division of line 101, and the progress file *)

Lemma compress_upload_and_clean_eq env faults max_size_gb resume all_files w :
  compress_upload_and_clean env faults max_size_gb resume all_files w
  = if decide (max_size_gb = 0) then (Raised ZeroDivisionError, w)
    else process_files_exn env faults (max_size_gb * 1024 * 1024 * 1024)
           (initial_progress resume w).1 all_files w.
Proof.
  unfold compress_upload_and_clean. cbv [mbind MX_bind mret MX_ret raise lift].
  destruct (decide (max_size_gb * 1024 * 1024 * 1024 = 0)), (decide (max_size_gb = 0));
    try lia; [done|].
  pose proof (initial_progress_world resume w) as Hw.
  destruct (initial_progress resume w) as [start w']. cbn in Hw. by subst w'.
Qed.

Section IndepExn.
Context (env : Env) (faults : Faults) (max_size_bytes : N).

Ltac same_run :=
  eexists; split; [reflexivity|]; first [done | intros ? [=]].

Lemma loop_body_exn_ledger pf f st w :
  ∃ pf',
    loop_body_exn env faults max_size_bytes f st (with_ledger pf w)
    = ((loop_body_exn env faults max_size_bytes f st w).1,
       with_ledger pf' (loop_body_exn env faults max_size_bytes f st w).2)
    ∧ (∀ b, (loop_body_exn env faults max_size_bytes f st w).1 = Done (Return b) →
            pf' = progress_file (loop_body_exn env faults max_size_bytes f st w).2).
Proof.
  unfold loop_body_exn.
  destruct (decide (f.1 ∈ processed_files st)); [same_run|].
  run_exn. unfold with_ledger. loop_fields.
  destruct (disk_ok env (space_calls w)); cbn [negb]; [|same_run].
  destruct (_ || _); [|same_run].
  destruct (nonempty (current_files st)).
  - rewrite !flush_batch_exn_eq. cbn zeta. loop_fields.
    destruct (fault_on faults (archive_name _)); [cbn [tar_create]; loop_fields; same_run|].
    unfold lift. rewrite !flush_batch_eq. cbn zeta. loop_fields.
    destruct (upload_ok env (upload_calls w)); [|same_run].
    destruct (max_size_bytes <? f.2); [|same_run].
    rewrite !big_file_exn_eq. cbn zeta. loop_fields.
    destruct (fault_on faults (big_file_archive _)); [cbn [tar_create]; loop_fields; same_run|].
    unfold lift. rewrite !big_file_eq. cbn zeta. loop_fields.
    destruct (upload_ok env (S (upload_calls w))); same_run.
  - destruct (max_size_bytes <? f.2); [|same_run].
    rewrite !big_file_exn_eq. cbn zeta. loop_fields.
    destruct (fault_on faults (big_file_archive _)); [cbn [tar_create]; loop_fields; same_run|].
    unfold lift. rewrite !big_file_eq. cbn zeta. loop_fields.
    destruct (upload_ok env (upload_calls w)); same_run.
Qed.

Lemma for_files_exn_ledger all_files : ∀ pf st w,
  ∃ pf',
    for_files_exn env faults max_size_bytes all_files st (with_ledger pf w)
    = ((for_files_exn env faults max_size_bytes all_files st w).1,
       with_ledger pf' (for_files_exn env faults max_size_bytes all_files st w).2)
    ∧ (∀ b, (for_files_exn env faults max_size_bytes all_files st w).1 = Done (Return b) →
            pf' = progress_file (for_files_exn env faults max_size_bytes all_files st w).2).
Proof.
  induction all_files as [|f rest IH]; intros pf st w.
  - exists pf. split; [done|]. intros b [=].
  - cbn [for_files_exn]. cbv [mbind MX_bind].
    destruct (loop_body_exn_ledger pf f st w) as (pf1 & -> & Hret).
    destruct (loop_body_exn env faults max_size_bytes f st w) as [[[st'|b]|e] w'];
      cbn [fst snd] in *.
    + apply IH.
    + exists pf1. split; [done|]. intros b' _. by apply (Hret b).
    + exists pf1. split; [done|]. intros b' [=].
Qed.

Lemma process_files_exn_ledger start all_files pf w :
  ∃ pf',
    process_files_exn env faults max_size_bytes start all_files (with_ledger pf w)
    = ((process_files_exn env faults max_size_bytes start all_files w).1,
       with_ledger pf' (process_files_exn env faults max_size_bytes start all_files w).2)
    ∧ (∀ b, (process_files_exn env faults max_size_bytes start all_files w).1 = Done b →
            pf' = progress_file (process_files_exn env faults max_size_bytes start all_files w).2).
Proof.
  unfold process_files_exn. cbv [mbind MX_bind].
  destruct (for_files_exn_ledger all_files pf (mkLoop start.1 start.2 0 []) w)
    as (pf1 & -> & Hret).
  destruct (for_files_exn env faults max_size_bytes all_files _ w) as [[[st'|b]|e] w'];
    cbn [fst snd] in *.
  - rewrite !last_batch_exn_eq. cbn zeta. unfold with_ledger at 1 2. loop_fields.
    destruct (nonempty (current_files st')) eqn:Hne.
    + destruct (fault_on faults (archive_name _)).
      { cbn [tar_create]. loop_fields. same_run. }
      unfold lift. rewrite !last_batch_eq, Hne. cbn zeta. loop_fields.
      destruct (upload_ok env (upload_calls w')); [|same_run].
      exists Absent. cbv [mret MX_ret]. split.
      * unfold clear_progress, with_ledger. loop_fields.
        destruct pf1, (progress_file w'); reflexivity.
      * intros _ _. unfold clear_progress. loop_fields.
        by destruct (progress_file w').
    + exists Absent. cbv [lift mret MX_ret]. split.
      * unfold clear_progress, with_ledger. loop_fields.
        destruct pf1, (progress_file w') eqn:E; cbn; rewrite ?E; reflexivity.
      * intros _ _. unfold clear_progress.
        by destruct (progress_file w') eqn:E; cbn; rewrite ?E.
  - exists pf1. cbv [mret MX_ret]. split; [done|]. intros b' _. by apply (Hret b).
  - exists pf1. split; [done|]. intros b' [=].
Qed.

End IndepExn.

(** ** C10: nothing left to do *)

Lemma fault_on_not_division faults name : fault_on faults name ≠ Some ZeroDivisionError.
Proof. unfold fault_on. by repeat case_match. Qed.

Lemma compress_upload_and_clean_outcome env faults max_size_gb resume all_files w :
  match (compress_upload_and_clean env faults max_size_gb resume all_files w).1 with
  | Done b =>
      max_size_gb ≠ 0
      ∧ process_files env (max_size_gb * 1024 * 1024 * 1024)
          (initial_progress resume w).1 all_files w
        = (b, (compress_upload_and_clean env faults max_size_gb resume all_files w).2)
  | Raised ZeroDivisionError =>
      max_size_gb = 0
      ∧ (compress_upload_and_clean env faults max_size_gb resume all_files w).2 = w
  | Raised e =>
      max_size_gb ≠ 0
      ∧ fault_at faults e
          (events (compress_upload_and_clean env faults max_size_gb resume all_files w).2)
  end.
Proof.
  rewrite compress_upload_and_clean_eq. destruct (decide (max_size_gb = 0)) as [->|Hgb]; [done|].
  pose proof (process_files_refines env faults (max_size_gb * 1024 * 1024 * 1024)
                (initial_progress resume w).1 all_files w) as H.
  unfold refines in H.
  destruct (process_files_exn _ _ _ _ _ _) as [[b|e] w']; cbn [fst snd] in *; [done|].
  destruct e; [|done..].
  destruct H as (? & ? & name & ? & _ & E). by apply fault_on_not_division in E.
Qed.

Section DoneExn.
Context (env : Env) (faults : Faults) (max_size_bytes : N).

Lemma for_files_exn_all_processed all_files st w :
  (∀ f, f ∈ all_files → f.1 ∈ processed_files st) →
  for_files_exn env faults max_size_bytes all_files st w = (Done (Next st), w).
Proof.
  induction all_files as [|f rest IH]; intros Hall; [done|].
  cbn [for_files_exn]. cbv [mbind MX_bind]. unfold loop_body_exn.
  destruct (decide (f.1 ∈ processed_files st)) as [_|Hn]; [|destruct Hn; set_solver].
  cbv [mret MX_ret]. apply IH. set_solver.
Qed.

Lemma process_files_exn_all_processed start all_files w :
  (∀ f, f ∈ all_files → f.1 ∈ start.2) →
  process_files_exn env faults max_size_bytes start all_files w
  = (Done true, with_ledger Absent w).
Proof.
  intros Hall. unfold process_files_exn. cbv [mbind MX_bind].
  rewrite for_files_exn_all_processed by done. rewrite last_batch_exn_eq. cbn.
  unfold lift, clear_progress, with_ledger. destruct w as [[] ? ? ? ?]; done.
Qed.

End DoneExn.

(** C10, as the code has it. When every inventory path is in the processed
    set the run starts from and the ceiling is not zero,
    [compress_upload_and_clean] returns [True], whatever [tarfile] and the
    uploads would do, and changes nothing but the progress file, which is
    absent afterwards: the event log is untouched, so there is no space
    check, no compression and no upload. With a ceiling of zero the
    division of line 101 raises [ZeroDivisionError] before the ledger is
    read, and nothing changes at all. *)
Theorem nothing_to_do (env : Env) (faults : Faults) (max_size_gb : N) (resume : bool)
    (all_files : list (string * N)) (w : World) :
  (∀ f, f ∈ all_files → f.1 ∈ (initial_progress resume w).1.2) →
  compress_upload_and_clean env faults max_size_gb resume all_files w
  = if decide (max_size_gb = 0) then (Raised ZeroDivisionError, w)
    else (Done true, with_ledger Absent w).
Proof.
  intros Hall. rewrite compress_upload_and_clean_eq.
  destruct (decide (max_size_gb = 0)); [done|].
  by apply process_files_exn_all_processed.
Qed.

Lemma nothing_to_do_witness :
  compress_upload_and_clean always_ok no_faults 50 true three_files old_ledger
  = (Done true, with_ledger Absent old_ledger).
Proof.
  apply (nothing_to_do always_ok no_faults 50 true three_files old_ledger).
  intros f Hf. cbn. unfold three_files in Hf. set_solver.
Defined.

(** C10 fails as stated: every file of this run is in the loaded processed
    set, and with a ceiling of zero the call raises instead of returning
    [True]; the progress file stays. *)
Lemma zero_ceiling_raises :
  (∀ f, f ∈ three_files → f.1 ∈ (initial_progress true old_ledger).1.2)
  ∧ compress_upload_and_clean always_ok no_faults 0 true three_files old_ledger
    = (Raised ZeroDivisionError, old_ledger)
  ∧ path_exists (progress_file old_ledger) = true.
Proof.
  split; [|done]. intros f Hf. cbn. unfold three_files in Hf. set_solver.
Qed.

(** ** C8: return value and exit status *)

Lemma process_files_in_order env max_size_bytes start all_files pf tf :
  each_event in_order
    (events (process_files env max_size_bytes start all_files (fresh_world pf tf)).2).
Proof.
  apply (process_files_inv env max_size_bytes
           (λ _ _ w, each_event in_order (events w))
           (λ _ w, each_event in_order (events w))).
  - intros k1 x k2 Hk. by destruct k1.
  - intros pre f rest st w _ H. pose proof (order_body env max_size_bytes f st w H) as H'.
    by destruct (loop_body env max_size_bytes f st w) as [[?|?] ?].
  - intros st w H. pose proof (order_last env st w H) as H'.
    destruct (last_batch env st w) as [[?|?] ?]; [|done].
    by rewrite clear_progress_events.
Qed.

(** A run that returns does not end on a compression. *)
Lemma process_files_not_cut env max_size_bytes start all_files pf tf log k name files :
  events (process_files env max_size_bytes start all_files (fresh_world pf tf)).2
  ≠ log ++ [Compress k name files].
Proof.
  intros Heq. destruct (process_files_in_order env max_size_bytes start all_files pf tf
                          _ _ _ Heq) as [_ (ok & l3 & [=])].
Qed.

(** C8, as the code has it. The script ends with status 0 exactly when
    [compress_upload_and_clean] returns, [True] or [False], or Ctrl-C is
    caught; it ends with status 1 exactly when the call raises the
    exception of a failed compression, that is when the log stops at the
    compression of an archive on which [tarfile] fails. A returned value is
    [True] exactly when no space check and no upload failed: the pause for
    disk space and a failed upload both return [False] and end with status
    0, as a complete run does. *)
Theorem exit_status_ignores_outcome (env : Env) (faults : Faults)
    (all_files : list (string * N)) (pf : file_state) (tf : gset string) :
  let r := compress_upload_and_clean env faults 50 true all_files (fresh_world pf tf) in
  let status := (script_main env faults all_files (fresh_world pf tf)).1 in
  (status = 0%Z ↔ (∃ b, r.1 = Done b) ∨ r.1 = Raised KeyboardInterrupt)
  ∧ (status = 1%Z ↔ r.1 = Raised TarError)
  ∧ (r.1 = Raised TarError ↔
     ∃ log k name files,
       events r.2 = log ++ [Compress k name files] ∧ tar_fails faults name = true)
  ∧ (∀ b, r.1 = Done b →
       (b = true ↔ Forall (λ e, failed e = false) (events r.2))).
Proof.
  intros r status.
  pose proof (compress_upload_and_clean_outcome env faults 50 true all_files
                (fresh_world pf tf)) as Hout.
  fold r in Hout. subst status. unfold script_main, try_except. fold r.
  destruct r as [[b|e] w'] eqn:Hr; cbn [fst snd] in *.
  - destruct Hout as [_ Hrun].
    pose proof (process_files_true_iff env (50 * 1024 * 1024 * 1024)
                  (initial_progress true (fresh_world pf tf)).1 all_files pf tf) as Hiff.
    rewrite Hrun in Hiff. cbn [fst snd] in Hiff.
    split; [|split; [|split]].
    + split; [|done]. intros _. left. by exists b.
    + split; intros [=].
    + split; [intros [=]|].
      intros (log & k & name & files & Hlog & _).
      apply (f_equal (λ x, events x.2)) in Hrun. cbn [snd] in Hrun. rewrite Hlog in Hrun.
      by apply process_files_not_cut in Hrun.
    + by intros ? [= <-].
  - destruct e; [by destruct Hout| |].
    + destruct Hout as [_ (log & k & name & files & Hlog & E)].
      split; [|split; [|split]]; [| done | | intros ? [=]].
      * split; [intros [=]|]. by intros [[? [=]]|[=]].
      * split; [|done]. intros _. exists log, k, name, files. split; [done|].
        unfold fault_on in E. by repeat case_match.
    + destruct Hout as [_ (log & k & name & files & Hlog & E)].
      split; [|split; [|split]]; [| | | intros ? [=]].
      * split; [|done]. intros _. by right.
      * split; intros [=].
      * split; [intros [=]|].
        intros (log' & k' & name' & files' & Hlog' & Hfail). rewrite Hlog in Hlog'.
        apply app_inj_tail in Hlog' as [_ [= _ <- _]].
        unfold fault_on in E. by rewrite Hfail in E.
Qed.

Lemma exit_status_ignores_outcome_witness :
  (script_main always_ok (tar_fails_on "ego4d_part_001.tar.gz") three_files
     (fresh_world Absent ∅)).1 = 1%Z
  ∧ (script_main no_space no_faults three_files (fresh_world Absent ∅)).1 = 0%Z.
Proof.
  split.
  - apply (exit_status_ignores_outcome always_ok (tar_fails_on "ego4d_part_001.tar.gz")
             three_files Absent ∅).
    vm_compute. reflexivity.
  - apply (exit_status_ignores_outcome no_space no_faults three_files Absent ∅).
    left. exists false. vm_compute. reflexivity.
Defined.

(** C8 fails as stated: with the upload failing, with no disk space and
    with Ctrl-C during the upload the script ends with status 0, the status
    of a complete run. *)
Lemma exit_status_zero_on_failure :
  (compress_upload_and_clean (upload_fails_from 0) no_faults 50 true three_files
     (fresh_world Absent ∅)).1 = Done false
  ∧ (script_main (upload_fails_from 0) no_faults three_files (fresh_world Absent ∅)).1 = 0%Z
  ∧ (compress_upload_and_clean no_space no_faults 50 true three_files
       (fresh_world Absent ∅)).1 = Done false
  ∧ (script_main no_space no_faults three_files (fresh_world Absent ∅)).1 = 0%Z
  ∧ (compress_upload_and_clean always_ok (interrupted_on "ego4d_part_001.tar.gz") 50 true
       three_files (fresh_world Absent ∅)).1 = Raised KeyboardInterrupt
  ∧ (script_main always_ok (interrupted_on "ego4d_part_001.tar.gz") three_files
       (fresh_world Absent ∅)).1 = 0%Z
  ∧ (script_main always_ok no_faults three_files (fresh_world Absent ∅)).1 = 0%Z.
Proof. vm_compute. done. Qed.

(** ** C9: a run without resume ignores the progress file *)

Lemma fresh_world_with_ledger pf tf : fresh_world pf tf = with_ledger pf (fresh_world Absent tf).
Proof. done. Qed.

(** C9, as the code has it. With [resume=False] the progress file is never
    read: outcome, event log and staging directory are those of a resumed
    run that finds no progress file, whatever the file holds, and so is the
    whole final state when the call returns. A call that returns is the
    batching run from sequence 1 and an empty processed set; it returns
    [True] exactly when no space check and no upload failed, and then
    every inventory path is in an archive that was uploaded. With a ceiling
    that is not zero and no fault the call returns, and returns [True] when
    every space check and upload succeeds; with a ceiling of zero it raises
    [ZeroDivisionError] and does nothing. *)
Theorem resume_false_ignores_ledger (env : Env) (faults : Faults) (max_size_gb : N)
    (all_files : list (string * N)) (pf : file_state) (tf : gset string) :
  let r := compress_upload_and_clean env faults max_size_gb false all_files
             (fresh_world pf tf) in
  let r0 := compress_upload_and_clean env faults max_size_gb true all_files
              (fresh_world Absent tf) in
  (r.1 = r0.1 ∧ events r.2 = events r0.2 ∧ temp_files r.2 = temp_files r0.2)
  ∧ (∀ b, r.1 = Done b →
       r.2 = r0.2
       ∧ process_files env (max_size_gb * 1024 * 1024 * 1024) (1%Z, ∅) all_files
           (fresh_world pf tf) = (b, r.2)
       ∧ (b = true ↔ Forall (λ e, failed e = false) (events r.2))
       ∧ (b = true → ∀ f, f ∈ all_files → f.1 ∈ uploaded (events r.2)))
  ∧ (max_size_gb ≠ 0 → (∀ name, fault_on faults name = None) →
     ∃ b, r.1 = Done b
          ∧ ((∀ n, disk_ok env n = true) → (∀ n, upload_ok env n = true) → b = true))
  ∧ (max_size_gb = 0 → r = (Raised ZeroDivisionError, fresh_world pf tf)).
Proof.
  intros r r0. subst r r0. rewrite !compress_upload_and_clean_eq.
  destruct (decide (max_size_gb = 0)) as [->|Hgb].
  { repeat split; done. }
  cbn [initial_progress fst]. change (load_progress (fresh_world Absent tf)).1 with (1%Z, ∅ : gset string).
  cbv [mret M_ret]. cbn [fst].
  set (mb := max_size_gb * 1024 * 1024 * 1024).
  rewrite (fresh_world_with_ledger pf tf).
  destruct (process_files_exn_ledger env faults mb (1%Z, ∅) all_files pf
              (fresh_world Absent tf)) as (pf' & Heq & Hret).
  rewrite <- (fresh_world_with_ledger pf tf) in *.
  pose proof (process_files_refines env faults mb (1%Z, ∅) all_files (fresh_world pf tf))
    as Href.
  unfold refines in Href. rewrite Heq in *. cbn [fst snd] in *.
  split; [done|]. split; [|split; [|done]].
  - intros b Hb. rewrite Hb in *. rewrite (Hret b eq_refl), with_ledger_same in *.
    split; [done|]. split; [done|].
    pose proof (process_files_true_iff env mb (1%Z, ∅) all_files pf tf) as Hiff.
    pose proof (process_files_uploaded env mb (1%Z, ∅) all_files pf tf) as Hup.
    pose proof (process_files_cover env mb (1%Z, ∅) all_files pf tf) as Hcov.
    rewrite Href in Hiff, Hup, Hcov. cbn [fst snd] in *.
    split; [done|]. intros ->. cbn in Hup, Hcov. rewrite Hup.
    intros f Hf. destruct Hcov as [Hcov _]. destruct (Hcov f.1) as [Hin|Hin]; [|set_solver|done].
    apply list_elem_of_fmap. by exists f.
  - intros _ Hnone. rewrite process_files_exn_done by done. unfold lift.
    pose proof (process_files_all_ok env mb (1%Z, ∅) all_files (fresh_world Absent tf)) as H.
    destruct (process_files env mb (1%Z, ∅) all_files (fresh_world Absent tf)) as [b w'].
    exists b. split; [done|]. exact H.
Qed.

Lemma resume_false_ignores_ledger_witness :
  ∃ b, (compress_upload_and_clean always_ok no_faults 50 false three_files old_ledger).1
       = Done b
       ∧ ((∀ n, disk_ok always_ok n = true) → (∀ n, upload_ok always_ok n = true) → b = true).
Proof.
  destruct (resume_false_ignores_ledger always_ok no_faults 50 three_files
              (Holds (JRecord (Some 3%Z) (Some ["a"; "b"; "c"]))) ∅) as (_ & _ & H & _).
  apply H; [lia|done].
Defined.

(** C9 fails as stated: without resume and with a ledger on disk, the
    upload fails and no inventory file is uploaded; with a ceiling of zero
    the call raises before anything is done. *)
Lemma resume_false_not_all_uploaded :
  (compress_upload_and_clean (upload_fails_from 0) no_faults 50 false three_files
     old_ledger).1 = Done false
  ∧ uploaded (events (compress_upload_and_clean (upload_fails_from 0) no_faults 50 false
                        three_files old_ledger).2) = []
  ∧ compress_upload_and_clean always_ok no_faults 0 false three_files old_ledger
    = (Raised ZeroDivisionError, old_ledger).
Proof. vm_compute. done. Qed.


(** * Further properties of the code, continued *)

(** ** Resuming *)

Lemma unprocessed_union (S T : gset string) (all_files : list (string * N)) :
  unprocessed (S ∪ T) all_files = filter (λ p, p ∉ T) (unprocessed S all_files).
Proof.
  unfold unprocessed. induction (all_files.*1) as [|p l IH]; [done|].
  rewrite !filter_cons. destruct (decide (p ∉ S ∪ T)), (decide (p ∉ S)).
  - rewrite filter_cons_True by set_solver. by rewrite IH.
  - set_solver.
  - rewrite filter_cons_False by set_solver. done.
  - done.
Qed.

Lemma filter_out_prefix (p q : list string) :
  NoDup (p ++ q) → filter (λ x, x ∉ (list_to_set p : gset string)) (p ++ q) = q.
Proof.
  intros Hnd. apply NoDup_app in Hnd as (_ & Hdisj & _).
  rewrite filter_app.
  assert (∀ (T : gset string) l, (∀ x, x ∈ l → x ∈ T) → filter (λ x, x ∉ T) l = [])
    as Hnone.
  { intros T l. induction l as [|x l IH]; intros Hl; [done|].
    rewrite filter_cons_False by set_solver. apply IH. set_solver. }
  rewrite Hnone by set_solver.
  cbn. induction q as [|x q IH]; [done|].
  rewrite filter_cons_True; [f_equal; apply IH; set_solver|].
  intros Hin. apply elem_of_list_to_set in Hin. apply (Hdisj x Hin). set_solver.
Qed.

Lemma process_files_partition env max_size_bytes start all_files pf tf :
  NoDup all_files.*1 →
  partition_post start all_files
    (process_files env max_size_bytes start all_files (fresh_world pf tf)).1
    (process_files env max_size_bytes start all_files (fresh_world pf tf)).2.
Proof.
  intros Hnodup.
  apply (process_files_inv env max_size_bytes (partition_inv start)
           (partition_post start all_files)).
  - split; [done|]. cbn. set_solver.
  - intros pre f rest st w. by apply partition_body.
  - intros st w. apply partition_last.
Qed.

Lemma load_progress_fresh w tf :
  (load_progress (fresh_world (progress_file w) tf)).1 = (load_progress w).1.
Proof.
  unfold load_progress. cbn [fresh_world progress_file].
  destruct (path_exists _); [|done]. by destruct (read_ledger _).
Qed.

(** X13. Resuming a halted run: for an inventory of distinct paths, when a
    run returns [False] and a second run, resumed from the progress file
    and staging directory it left, returns [True], the files uploaded by
    the first followed by those uploaded by the second are exactly the
    inventory paths that were unprocessed at the start, each once. *)
Theorem resume_uploads_the_rest (env1 env2 : Env) (faults1 faults2 : Faults)
    (max_size_gb : N) (resume : bool)
    (all_files : list (string * N)) (pf : file_state) (tf : gset string) :
  NoDup all_files.*1 →
  let w0 := fresh_world pf tf in
  let r1 := compress_upload_and_clean env1 faults1 max_size_gb resume all_files w0 in
  let r2 := compress_upload_and_clean env2 faults2 max_size_gb true all_files
              (fresh_world (progress_file r1.2) (temp_files r1.2)) in
  r1.1 = Done false → r2.1 = Done true →
  uploaded (events r1.2) ++ uploaded (events r2.2)
  = unprocessed (initial_progress resume w0).1.2 all_files.
Proof.
  intros Hnodup w0 r1 r2 Hr1 Hr2.
  pose proof (compress_upload_and_clean_outcome env1 faults1 max_size_gb resume all_files w0)
    as Ho1.
  pose proof (compress_upload_and_clean_outcome env2 faults2 max_size_gb true all_files
                (fresh_world (progress_file r1.2) (temp_files r1.2))) as Ho2.
  fold r1 in Ho1. fold r2 in Ho2. rewrite Hr1 in Ho1. rewrite Hr2 in Ho2.
  destruct Ho1 as [_ Ho1]. destruct Ho2 as [_ Ho2].
  set (mb := max_size_gb * 1024 * 1024 * 1024) in *.
  set (start := (initial_progress resume w0).1) in *.
  pose proof (process_files_uploaded env1 mb start all_files pf tf) as Hu1.
  pose proof (process_files_partition env1 mb start all_files pf tf Hnodup) as [Hp1 _].
  fold w0 in Hu1, Hp1. rewrite Ho1 in Hu1, Hp1. cbn [fst snd uploaded_post] in Hu1, Hp1.
  destruct Hu1 as [Hload Hpre].
  assert (uploaded (events r1.2) `prefix_of` unprocessed start.2 all_files)
    as [q Hq] by by etrans.
  cbn [initial_progress] in Ho2. rewrite load_progress_fresh, Hload in Ho2.
  set (start2 := ((start.1 + Z.of_nat (ok_uploads (events r1.2)))%Z,
                  start.2 ∪ list_to_set (uploaded (events r1.2)))) in *.
  pose proof (process_files_uploaded env2 mb start2 all_files (progress_file r1.2)
                (temp_files r1.2)) as Hu2.
  pose proof (process_files_partition env2 mb start2 all_files (progress_file r1.2)
                (temp_files r1.2) Hnodup) as [_ Hp2].
  rewrite Ho2 in Hu2, Hp2. cbn [fst snd uploaded_post] in Hu2, Hp2.
  rewrite Hu2, (Hp2 eq_refl). subst start2. cbn [snd].
  rewrite unprocessed_union, Hq. f_equal. apply filter_out_prefix.
  rewrite <- Hq. unfold unprocessed. by apply NoDup_filter.
Qed.

(** ** Processed files stay out *)

Section Fresh.
Context (env : Env) (max_size_bytes : N) (start : Z * gset string).

Lemma fresh_body f st w :
  fresh_inv start st w →
  match loop_body env max_size_bytes f st w with
  | (Next st', w') => fresh_inv start st' w'
  | (Return b, w') => ∀ p, p ∈ batch_files (events w') → p ∉ start.2
  end.
Proof.
  intros [Hsub Hnew].
  body_cases; unfold fresh_inv; loop_fields; rewrite <- ?app_assoc; cbn [app];
    rewrite ?batch_files_app, ?batch_files_cons, ?batch_files_nil; cbn [app];
    rewrite ?app_nil_r.
  all: try (split; [set_solver|]).
  all: intros p Hp; specialize (Hnew p); set_solver.
Qed.

Lemma fresh_last st w :
  fresh_inv start st w →
  ∀ p, p ∈ batch_files (events (last_batch env st w).2) → p ∉ start.2.
Proof.
  intros [Hsub Hnew].
  last_cases; loop_fields;
    rewrite ?batch_files_app, ?batch_files_cons, ?batch_files_nil; cbn [app];
    rewrite ?app_nil_r.
  all: intros p Hp; specialize (Hnew p); set_solver.
Qed.

(** X14. A path the ledger lists as processed at the start of a run is in
    no archive the run compresses, also when the inventory repeats paths. *)
Theorem processed_files_never_archived (all_files : list (string * N))
    (pf : file_state) (tf : gset string) (p : string) :
  p ∈ start.2 →
  p ∉ batch_files (events (process_files env max_size_bytes start all_files
                             (fresh_world pf tf)).2).
Proof.
  intros Hp Hin. revert p Hin Hp.
  apply (process_files_inv env max_size_bytes (λ _, fresh_inv start)
           (λ _ w, ∀ p, p ∈ batch_files (events w) → p ∉ start.2)).
  - split; [done|]. intros p. cbn. set_solver.
  - intros pre f rest st w _. apply fresh_body.
  - intros st w H. pose proof (fresh_last st w H) as H'.
    destruct (last_batch env st w) as [[?|?] ?]; [|done].
    by rewrite clear_progress_events.
Qed.
End Fresh.

(** ** The further properties on the concrete runs *)

Lemma inventory_lists_regular_files_witness :
  ("/data/sub/b", 5) ∈ get_all_files small_islink small_getsize small_walk.
Proof.
  apply inventory_lists_regular_files.
  exists "/data/sub", [], ["b"], "b". unfold small_walk.
  split; [set_solver|]. split; [set_solver|]. by vm_compute.
Defined.

Lemma archive_names_injective_witness : Normal = Normal ∧ 7%Z = 7%Z.
Proof. apply (archive_names_injective Normal Normal 7 7). reflexivity. Defined.



Lemma ledger_only_grows_witness :
  (2 ≤ 2 ≤ 2 + 1)%Z ∧ ({["a"]} : gset string) ⊆ list_to_set ["a"].
Proof.
  pose proof (ledger_only_grows (upload_fails_from 1) 15 (1%Z, ∅) three_files Absent ∅
           [SpaceCheck true; SpaceCheck true;
            Compress Normal "ego4d_part_001.tar.gz" ["a"];
            Upload "ego4d_part_001.tar.gz" true; Remove "ego4d_part_001.tar.gz";
            SaveProgress 2 ["a"]; SpaceCheck true;
            Compress Normal "ego4d_part_002.tar.gz" ["b"; "c"];
            Upload "ego4d_part_002.tar.gz" false] 2 ["a"] []) as H.
  cbn [last_saved foldl fst snd] in H.
  destruct H as [H1 H2]; [vm_compute; reflexivity|].
  split; [exact H1|]. set_solver.
Defined.

Lemma no_space_saves_and_stops_witness :
  paused_run.1 = false
  ∧ ∃ ca l, [SaveProgress 1 []] = [SaveProgress ca l]
      ∧ (ca, list_to_set l) = last_saved (1%Z, ∅) []
      ∧ progress_file paused_run.2 = Holds (JRecord (Some ca) (Some l)).
Proof.
  apply (no_space_saves_and_stops no_space 15 (1%Z, ∅) three_files Absent ∅ []
           [SaveProgress 1 []]).
  vm_compute. reflexivity.
Defined.

Lemma halted_ledger_counts_uploads_witness :
  (load_progress failing_run.2).1
  = ((1 + Z.of_nat (ok_uploads (events failing_run.2)))%Z,
     ∅ ∪ list_to_set (uploaded (events failing_run.2))).
Proof.
  apply (halted_ledger_counts_uploads (upload_fails_from 1) 15 (1%Z, ∅) three_files
           Absent ∅).
  vm_compute. reflexivity.
Defined.

Lemma success_means_all_uploaded_witness :
  uploaded (events complete_run.2) = batch_files (events complete_run.2)
  ∧ ∀ f, f ∈ three_files → f.1 ∈ (∅ : gset string) ∨ f.1 ∈ uploaded (events complete_run.2).
Proof.
  apply (success_means_all_uploaded always_ok 15 (1%Z, ∅) three_files Absent ∅).
  vm_compute. reflexivity.
Defined.

Lemma gib_files_NoDup : NoDup gib_files.*1.
Proof. cbn. repeat (apply NoDup_cons; split; [set_solver|]). apply NoDup_nil_2. Qed.

Lemma resume_uploads_the_rest_witness :
  uploaded (events first_attempt.2) ++ uploaded (events second_attempt.2)
  = ["a"; "b"; "c"].
Proof.
  pose proof (resume_uploads_the_rest (upload_fails_from 1) always_ok no_faults no_faults
                50 true gib_files Absent ∅ gib_files_NoDup) as H.
  cbn zeta in H. unfold second_attempt, first_attempt.
  rewrite H; vm_compute; reflexivity.
Defined.

Lemma processed_files_never_archived_witness :
  "b" ∉ batch_files (events (process_files always_ok 15 (1%Z, {["b"]}) three_files
                               (fresh_world Absent ∅)).2).
Proof. apply processed_files_never_archived. cbn. set_solver. Defined.

Lemma inventory_keeps_walk_order_witness :
  NoDup (get_all_files small_islink small_getsize small_walk).*1.
Proof.
  destruct (inventory_keeps_walk_order small_islink small_getsize small_walk) as [_ H].
  apply H. vm_compute. repeat (apply NoDup_cons; split; [set_solver|]). apply NoDup_nil_2.
Defined.
